(** * Slay: rules engine and alpha-beta search core

    A shallow embedding of [engine/units.py], [engine/hex_grid.py],
    [engine/territory.py], [engine/game_state.py], [engine/actions.py] and
    the search part of [ai/alphabeta_ai.py].

    Conventions of the embedding.
    - Python integers are [Z].
    - A [Hex] object is owned by the grid dictionary and never replaced; a
      reference to a [Hex] is modelled by its key [(col, row)], and a field
      write [h.f = v] by an update of the grid at that key.  Two references
      are the same object exactly when their positions are equal.
    - The dictionary [grid.hexes] is a [gmap]; its iteration order is the
      insertion order of [HexGrid.__init__] (columns outside, rows inside).
    - A Python exception (KeyError, IndexError, ZeroDivisionError) is the
      result [None] of a function into [option]. *)

From stdpp Require Import base option list gmap fin_maps fin_sets numbers.

Local Open Scope Z_scope.

(* ===================================================================== *)
(** ** engine/units.py *)
(* ===================================================================== *)

Inductive UnitType : Type :=
  | NONE | TREE_PINE | TREE_PALM | PEASANT | SPEARMAN | KNIGHT | BARON.

#[global] Instance UnitType_eq_dec : EqDecision UnitType.
Proof. solve_decision. Defined.

#[global] Instance UnitType_inhabited : Inhabited UnitType := populate NONE.

(** The [IntEnum] value of a unit type. *)
Definition UnitType_value (u : UnitType) : Z :=
  match u with
  | NONE => 0 | TREE_PINE => 1 | TREE_PALM => 2 | PEASANT => 3
  | SPEARMAN => 4 | KNIGHT => 5 | BARON => 6
  end.

(** [UnitType(n)]: the member with value [n]; [None] is Python's ValueError. *)
Definition UnitType_of_value (n : Z) : option UnitType :=
  if n =? 0 then Some NONE
  else if n =? 1 then Some TREE_PINE
  else if n =? 2 then Some TREE_PALM
  else if n =? 3 then Some PEASANT
  else if n =? 4 then Some SPEARMAN
  else if n =? 5 then Some KNIGHT
  else if n =? 6 then Some BARON
  else None.

Definition PEASANT_COST : Z := 10.
Definition CASTLE_COST : Z := 15.
Definition CAPITAL_DEFENSE : Z := 1.
Definition CASTLE_DEFENSE : Z := 2.

(** [UNIT_STATS[u]["power"]], 0 for types outside the table. *)
Definition unit_power (u : UnitType) : Z :=
  match u with
  | PEASANT => 1 | SPEARMAN => 2 | KNIGHT => 3 | BARON => 4
  | _ => 0
  end.

Definition unit_wage (u : UnitType) : Z :=
  match u with
  | PEASANT => 2 | SPEARMAN => 6 | KNIGHT => 18 | BARON => 54
  | _ => 0
  end.

(** [combine_units]: [None] is Python's [None] (invalid combination). *)
Definition combine_units (type_a type_b : UnitType) : option UnitType :=
  let power_a := unit_power type_a in
  let power_b := unit_power type_b in
  if (power_a =? 0) || (power_b =? 0) then None
  else
    let combined_power := power_a + power_b in
    if combined_power >? 4 then None
    else UnitType_of_value (combined_power + 2).

(* ===================================================================== *)
(** ** engine/hex_grid.py *)
(* ===================================================================== *)

Definition Pos : Type := (Z * Z)%type.

Definition NEIGHBOR_DIRS_EVEN : list (Z * Z) :=
  [(1, 0); (1, -1); (0, -1); (-1, -1); (-1, 0); (0, 1)].
Definition NEIGHBOR_DIRS_ODD : list (Z * Z) :=
  [(1, 1); (1, 0); (0, -1); (-1, 0); (-1, 1); (0, 1)].

(** The mutable fields of a [Hex]; [col] and [row] are its key. *)
Record Hex : Type := mkHex {
  is_land : bool;
  owner : Z;
  unit : UnitType;
  has_capital : bool;
  has_castle : bool;
  grave : bool;
  can_move : bool
}.

#[global] Instance Hex_eq_dec : EqDecision Hex.
Proof. solve_decision. Defined.

(** [Hex(col, row)] as built by [__init__]. *)
Definition new_Hex : Hex := mkHex false (-1) NONE false false false false.

#[global] Instance Hex_inhabited : Inhabited Hex := populate new_Hex.

Definition set_owner (v : Z) (h : Hex) : Hex :=
  mkHex (is_land h) v (unit h) (has_capital h) (has_castle h) (grave h) (can_move h).
Definition set_unit (v : UnitType) (h : Hex) : Hex :=
  mkHex (is_land h) (owner h) v (has_capital h) (has_castle h) (grave h) (can_move h).
Definition set_has_capital (v : bool) (h : Hex) : Hex :=
  mkHex (is_land h) (owner h) (unit h) v (has_castle h) (grave h) (can_move h).
Definition set_has_castle (v : bool) (h : Hex) : Hex :=
  mkHex (is_land h) (owner h) (unit h) (has_capital h) v (grave h) (can_move h).
Definition set_grave (v : bool) (h : Hex) : Hex :=
  mkHex (is_land h) (owner h) (unit h) (has_capital h) (has_castle h) v (can_move h).
Definition set_can_move (v : bool) (h : Hex) : Hex :=
  mkHex (is_land h) (owner h) (unit h) (has_capital h) (has_castle h) (grave h) v.

Definition is_empty_land (h : Hex) : bool :=
  is_land h && bool_decide (unit h = NONE)
  && negb (has_capital h) && negb (has_castle h) && negb (grave h).

Definition has_tree (h : Hex) : bool :=
  match unit h with TREE_PINE | TREE_PALM => true | _ => false end.

Definition has_combat_unit (h : Hex) : bool :=
  match unit h with PEASANT | SPEARMAN | KNIGHT | BARON => true | _ => false end.

Definition defense_power (h : Hex) : Z :=
  let power := unit_power (unit h) in
  let power := if has_capital h then Z.max power CAPITAL_DEFENSE else power in
  let power := if has_castle h then Z.max power CASTLE_DEFENSE else power in
  power.

Definition produces_income (h : Hex) : bool :=
  if negb (is_land h) then false
  else if has_tree h || grave h then false
  else true.

Definition clear_unit (h : Hex) : Hex :=
  set_can_move false (set_unit NONE h).

Definition kill_unit (h : Hex) : Hex :=
  if has_combat_unit h
  then set_can_move false (set_grave true (set_unit NONE h))
  else h.

Record HexGrid : Type := mkGrid {
  width : Z;
  height : Z;
  hexes : gmap Pos Hex
}.

(** The keys in the order [__init__] inserts them. *)
Definition grid_positions (w h : Z) : list Pos :=
  c ← seqZ 0 w; r ← seqZ 0 h; [(c, r)].

(** [HexGrid(width, height)]. *)
Definition new_HexGrid (w h : Z) : HexGrid :=
  mkGrid w h (list_to_map ((λ p, (p, new_Hex)) <$> grid_positions w h)).

(** [grid.hexes.items()]: the cells in dictionary order. *)
Definition hex_items (g : HexGrid) : list (Pos * Hex) :=
  omap (λ p, (λ h, (p, h)) <$> hexes g !! p) (grid_positions (width g) (height g)).

(** Every key of the dictionary lies in the rectangle, as [HexGrid.__init__]
    and [load_map] establish; then [hex_items] lists the whole dictionary. *)
Definition grid_wf (g : HexGrid) : Prop :=
  map_Forall (λ p _, p ∈ grid_positions (width g) (height g)) (hexes g).

(** A grid with the same shape and another cell store. *)
Definition with_hexes (g : HexGrid) (m : gmap Pos Hex) : HexGrid :=
  mkGrid (width g) (height g) m.

(** [h.f = v] for the cell referenced by [p]. *)
Definition upd (f : Hex → Hex) (p : Pos) (g : HexGrid) : HexGrid :=
  with_hexes g (alter f p (hexes g)).

(** Reading through a reference that is known to point into the grid. *)
Definition hx (g : HexGrid) (p : Pos) : Hex := hexes g !!! p.

Definition get_neighbors (g : HexGrid) (p : Pos) : list Pos :=
  let dirs := if p.1 `mod` 2 =? 1 then NEIGHBOR_DIRS_ODD else NEIGHBOR_DIRS_EVEN in
  omap (λ d : Z * Z,
          let q := (p.1 + d.1, p.2 + d.2) in
          if hexes g !! q is Some _ then Some q else None) dirs.

Definition get_relative_power (g : HexGrid) (p : Pos) : Z :=
  foldl (λ power n,
           if bool_decide (owner (hx g n) = owner (hx g p))
           then Z.max power (defense_power (hx g n)) else power)
        (defense_power (hx g p)) (get_neighbors g p).

Definition is_coastal (g : HexGrid) (p : Pos) : bool :=
  let land_neighbors :=
    Z.of_nat (length (filter (λ n, is_land (hx g n) = true) (get_neighbors g p))) in
  land_neighbors <? 6.

Definition all_land (g : HexGrid) : list Pos :=
  (hex_items g) ≫= (λ ph, if is_land ph.2 then [ph.1] else []).


(* ===================================================================== *)
(** ** engine/territory.py *)
(* ===================================================================== *)

(** [list.sort(key=..., reverse=True)]: a stable sort into descending key
    order; [gt x y] says that the key of [x] is greater than the key of
    [y].  Elements with equal keys keep their order. *)
Fixpoint insert_desc {A} (gt : A → A → bool) (x : A) (l : list A) : list A :=
  match l with
  | [] => [x]
  | y :: l' => if gt y x then y :: insert_desc gt x l' else x :: l
  end.

Definition sort_desc {A} (gt : A → A → bool) (l : list A) : list A :=
  foldr (insert_desc gt) [] l.

(** A [Territory] object: the references to its cells, its owner, its
    treasury and the cached capital reference [_capital_hex]. *)
Record Territory : Type := mkTerritory {
  t_hexes : list Pos;
  t_owner : Z;
  t_gold : Z;
  t_capital_cache : option Pos
}.

#[global] Instance Territory_eq_dec : EqDecision Territory.
Proof. solve_decision. Defined.

(** [Territory(hexes, owner)]. *)
Definition new_Territory (hs : list Pos) (o : Z) : Territory :=
  mkTerritory hs o 0 None.

Definition set_t_gold (v : Z) (t : Territory) : Territory :=
  mkTerritory (t_hexes t) (t_owner t) v (t_capital_cache t).
Definition set_t_capital_cache (v : option Pos) (t : Territory) : Territory :=
  mkTerritory (t_hexes t) (t_owner t) (t_gold t) v.

Definition t_size (t : Territory) : Z := Z.of_nat (length (t_hexes t)).

(** The property [capital_hex]: the cached reference when it is still a
    member, else the first member with [has_capital], which is then cached.
    The result comes with the territory as the call leaves it. *)
Definition capital_hex (g : HexGrid) (t : Territory) : option Pos * Territory :=
  let scan :=
    match filter (λ p, has_capital (hx g p) = true) (t_hexes t) with
    | h :: _ => (Some h, set_t_capital_cache (Some h) t)
    | [] => (None, t)
    end in
  match t_capital_cache t with
  | Some c => if bool_decide (c ∈ t_hexes t) then (Some c, t) else scan
  | None => scan
  end.

Definition income (g : HexGrid) (t : Territory) : Z :=
  Z.of_nat (length (filter (λ p, produces_income (hx g p) = true) (t_hexes t))).

Definition wages (g : HexGrid) (t : Territory) : Z :=
  foldl (λ total p, total + unit_wage (unit (hx g p))) 0 (t_hexes t).

Definition net_income (g : HexGrid) (t : Territory) : Z :=
  income g t - wages g t.

Definition combat_units (g : HexGrid) (t : Territory) : list Pos :=
  filter (λ p, has_combat_unit (hx g p) = true) (t_hexes t).

Definition movable_units (g : HexGrid) (t : Territory) : list Pos :=
  filter (λ p, has_combat_unit (hx g p) = true ∧ can_move (hx g p) = true) (t_hexes t).

Definition contains (t : Territory) (p : Pos) : bool :=
  bool_decide (p ∈ t_hexes t).

(** [_go_bankrupt]: every member cell is sent [kill_unit], in order. *)
Definition _go_bankrupt (g : HexGrid) (t : Territory) : HexGrid * Territory :=
  (foldl (λ g p, upd kill_unit p g) g (t_hexes t), set_t_gold 0 t).

(** [collect_income]: the returned flag, the grid and the territory. *)
Definition collect_income (g : HexGrid) (t : Territory) : bool * HexGrid * Territory :=
  let t := set_t_gold (t_gold t + net_income g t) t in
  if t_gold t <? 0
  then let '(g, t) := _go_bankrupt g t in (true, g, t)
  else (false, g, t).

Definition _place_capital (g : HexGrid) (t : Territory) (h : Pos) : HexGrid * Territory :=
  let g := upd (set_has_capital true) h g in
  let g := upd (set_grave false) h g in
  (g, set_t_capital_cache (Some h) t).

Definition can_afford_peasant (t : Territory) : bool := t_gold t >=? PEASANT_COST.
Definition can_afford_castle (t : Territory) : bool := t_gold t >=? CASTLE_COST.

(** [neighboring_hexes]: the land cells next to the territory and outside
    it.  Python builds a set and lists it in an unspecified order; here the
    cells come in the order in which they are first met. *)
Definition neighboring_hexes (g : HexGrid) (t : Territory) : list Pos :=
  remove_dups
    (h ← t_hexes t;
     filter (λ n, n ∉ t_hexes t ∧ is_land (hx g n) = true) (get_neighbors g h)).

Definition enemy_neighbors (g : HexGrid) (t : Territory) : list Pos :=
  filter (λ h, owner (hx g h) ≠ t_owner t ∧ (0 <= owner (hx g h)))
         (neighboring_hexes g t).

Definition neutral_neighbors (g : HexGrid) (t : Territory) : list Pos :=
  filter (λ h, owner (hx g h) < 0) (neighboring_hexes g t).

(** [ensure_capital(avoid_adjacent_to, preferred_pos)].  An absent or empty
    [avoid_adjacent_to] is falsy. *)
Definition ensure_capital (g : HexGrid) (t : Territory)
    (avoid_adjacent_to : option (gset Pos)) (preferred_pos : option Pos)
  : HexGrid * Territory :=
  if t_size t >=? 2 then
    let '(cap, t) := capital_hex g t in
    match cap with
    | Some _ => (g, t)
    | None =>
      match preferred_pos ≫= (λ pp, head (filter (λ h, h = pp) (t_hexes t))) with
      | Some h => _place_capital g t h
      | None =>
        let candidates :=
          filter (λ h, has_combat_unit (hx g h) = false ∧ has_castle (hx g h) = false
                       ∧ has_tree (hx g h) = false) (t_hexes t) in
        match candidates with
        | _ :: _ =>
          let candidates :=
            match avoid_adjacent_to with
            | Some av =>
              if bool_decide (av = ∅) then candidates
              else match filter (λ h, h ∉ av) candidates with
                   | [] => candidates
                   | safe => safe
                   end
            | None => candidates
            end in
          match candidates with
          | h :: _ => _place_capital g t h
          | [] => (g, t)
          end
        | [] =>
          match filter (λ h, has_castle (hx g h) = true) (t_hexes t) with
          | h :: _ => _place_capital (upd (set_has_castle false) h g) t h
          | [] =>
            let units := filter (λ h, has_combat_unit (hx g h) = true) (t_hexes t) in
            match sort_desc (λ a b, unit_power (unit (hx g a)) >? unit_power (unit (hx g b)))
                            units with
            | h :: _ =>
              let g := upd (set_unit NONE) h g in
              let g := upd (set_grave true) h g in
              let g := upd (set_can_move false) h g in
              _place_capital g t h
            | [] =>
              match t_hexes t with
              | h :: _ => _place_capital (upd (set_unit NONE) h g) t h
              | [] => (g, t)
              end
            end
          end
        end
      end
    end
  else
    (foldl (λ g h, upd (set_has_capital false) h g) g (t_hexes t),
     set_t_capital_cache None t).

(* ===================================================================== *)
(** ** engine/game_state.py *)
(* ===================================================================== *)

Record Player : Type := mkPlayer {
  p_id : Z;
  alive : bool;
  is_human : bool
}.

#[global] Instance Player_eq_dec : EqDecision Player.
Proof. solve_decision. Defined.

(** [Player(player_id)]. *)
Definition new_Player (player_id : Z) : Player := mkPlayer player_id true false.

Record GameState : Type := mkGameState {
  grid : HexGrid;
  players : list Player;
  territories : list Territory;
  current_player_idx : Z;
  turn_number : Z;
  game_over : bool;
  winner : option Z
}.

Definition set_grid (v : HexGrid) (gs : GameState) : GameState :=
  mkGameState v (players gs) (territories gs) (current_player_idx gs)
              (turn_number gs) (game_over gs) (winner gs).
Definition set_territories (v : list Territory) (gs : GameState) : GameState :=
  mkGameState (grid gs) (players gs) v (current_player_idx gs)
              (turn_number gs) (game_over gs) (winner gs).
Definition set_players (v : list Player) (gs : GameState) : GameState :=
  mkGameState (grid gs) v (territories gs) (current_player_idx gs)
              (turn_number gs) (game_over gs) (winner gs).

(** [l[i]] for a Python list: negative indices count from the end, an index
    out of range raises. *)
Definition py_index {A} (l : list A) (i : Z) : option A :=
  if 0 <=? i then l !! Z.to_nat i
  else if 0 <=? Z.of_nat (length l) + i then l !! Z.to_nat (Z.of_nat (length l) + i)
  else None.

Definition current_player (gs : GameState) : option Player :=
  py_index (players gs) (current_player_idx gs).

Definition num_alive (gs : GameState) : Z :=
  Z.of_nat (length (filter (λ p, alive p = true) (players gs))).

Definition get_player_territories (gs : GameState) (player_id : Z) : list Territory :=
  filter (λ t, t_owner t = player_id) (territories gs).

(** *** [HexGrid.flood_fill] *)

(** The body of the loop over the neighbours of the current cell. *)
Definition flood_step (g : HexGrid) (o : Z) (acc : gset Pos * list Pos) (n : Pos)
  : gset Pos * list Pos :=
  let '(visited, queue) := acc in
  if bool_decide (n ∉ visited) && is_land (hx g n) && bool_decide (owner (hx g n) = o)
  then ({[n]} ∪ visited, queue ++ [n])
  else (visited, queue).

(** The [while queue] loop; every turn of it uses one unit of [fuel], and
    [None] says that the fuel ran out before the queue was empty. *)
Fixpoint flood_fill_loop (fuel : nat) (g : HexGrid) (o : Z)
    (visited : gset Pos) (queue result : list Pos) : option (list Pos) :=
  match queue with
  | [] => Some result
  | current :: queue =>
    match fuel with
    | O => None
    | S fuel =>
      let result := result ++ [current] in
      let '(visited, queue) :=
        foldl (flood_step g o) (visited, queue) (get_neighbors g current) in
      flood_fill_loop fuel g o visited queue result
    end
  end.

(** [flood_fill(start, owner)]; one turn of the loop for each cell of the
    grid and one for [start] always suffice. *)
Definition flood_fill (g : HexGrid) (start : Pos) (o : Z) : option (list Pos) :=
  if negb (is_land (hx g start)) || negb (bool_decide (owner (hx g start) = o))
  then Some []
  else flood_fill_loop (S (size (hexes g))) g o {[start]} [start] [].

(** *** [refresh_territories] *)

Definition sumZ (l : list Z) : Z := foldl Z.add 0 l.

(** The first loop: [old_caps] maps the position of the capital of each old
    territory that has one to [(owner, gold, size)]. *)
Definition old_caps_step (g : HexGrid)
    (acc : gmap Pos (Z * Z * Z) * list Territory) (t : Territory)
  : gmap Pos (Z * Z * Z) * list Territory :=
  let '(old_caps, ts) := acc in
  let '(cap, t) := capital_hex g t in
  (match cap with
   | Some c => <[c := (t_owner t, t_gold t, t_size t)]> old_caps
   | None => old_caps
   end, ts ++ [t]).

(** The capital of the first old territory that contains
    [merge_priority_pos]. *)
Definition priority_cap_pos_of (g : HexGrid) (ts : list Territory)
    (merge_priority_pos : option Pos) : option Pos :=
  mp ← merge_priority_pos;
  t ← head (filter (λ t, mp ∈ t_hexes t) ts);
  (capital_hex g t).1.

Definition clear_capitals (g : HexGrid) : HexGrid :=
  foldl (λ g h, upd (set_has_capital false) h g) g (all_land g).

(** The flood-fill loop over the land cells: the visited set and the new
    territories. *)
Definition regions_step (g : HexGrid)
    (acc : option (gset Pos * list Territory)) (h : Pos)
  : option (gset Pos * list Territory) :=
  '(visited, ts) ← acc;
  if bool_decide (h ∈ visited) || (owner (hx g h) <? 0) then Some (visited, ts)
  else
    region ← flood_fill g h (owner (hx g h));
    let visited := foldl (λ v rh, {[rh]} ∪ v) visited region in
    match region with
    | [] => Some (visited, ts)
    | _ => Some (visited, ts ++ [new_Territory region (owner (hx g h))])
    end.

(** The old capitals found in a new territory, with their gold and size. *)
Definition merged_caps_of (old_caps : gmap Pos (Z * Z * Z)) (t : Territory)
  : list (Pos * Z * Z) :=
  h ← t_hexes t;
  match old_caps !! h with
  | Some (prev_owner, prev_gold, prev_size) =>
      if bool_decide (prev_owner = t_owner t) then [(h, prev_gold, prev_size)] else []
  | None => []
  end.

(** The order of the sort keys [(c[2], c[0] == priority_cap_pos)]. *)
Definition merged_cap_gt (priority_cap_pos : option Pos) (c1 c2 : Pos * Z * Z) : bool :=
  let b1 := bool_decide (Some c1.1.1 = priority_cap_pos) in
  let b2 := bool_decide (Some c2.1.1 = priority_cap_pos) in
  (c1.2 >? c2.2) || ((c1.2 =? c2.2) && b1 && negb b2).

(** The last loop: gold and capital of one new territory. *)
Definition restore_step (old_caps : gmap Pos (Z * Z * Z)) (priority_cap_pos : option Pos)
    (capital_avoid : option (gmap Z (gset Pos)))
    (acc : HexGrid * list Territory) (t : Territory) : HexGrid * list Territory :=
  let '(g, ts) := acc in
  let merged_caps := merged_caps_of old_caps t in
  let t := set_t_gold (sumZ (merged_caps.*1.*2)) t in
  let preferred_cap :=
    (λ c : Pos * Z * Z, c.1.1) <$> head (sort_desc (merged_cap_gt priority_cap_pos) merged_caps) in
  let avoid := capital_avoid ≫= (λ ca, ca !! t_owner t) in
  let '(g, t) := ensure_capital g t avoid preferred_cap in
  (g, ts ++ [t]).

Definition refresh_territories (gs : GameState)
    (capital_avoid : option (gmap Z (gset Pos))) (merge_priority_pos : option Pos)
  : option GameState :=
  let '(old_caps, old_ts) := foldl (old_caps_step (grid gs)) (∅, []) (territories gs) in
  let priority_cap_pos := priority_cap_pos_of (grid gs) old_ts merge_priority_pos in
  let g := clear_capitals (grid gs) in
  '(_, new_ts) ← foldl (regions_step g) (Some (∅, [])) (all_land g);
  let '(g, ts) :=
    foldl (restore_step old_caps priority_cap_pos capital_avoid) (g, []) new_ts in
  Some (set_territories ts (set_grid g gs)).

(** *** Turn progression *)

(** Step 2 of [_grow_trees]: the graves of the player become trees. *)
Definition grow_graves_step (player_id : Z) (g : HexGrid) (h : Pos) : HexGrid :=
  if negb (bool_decide (owner (hx g h) = player_id)) || negb (grave (hx g h)) then g
  else
    let g := if is_coastal g h then upd (set_unit TREE_PALM) h g
             else upd (set_unit TREE_PINE) h g in
    upd (set_grave false) h g.

(** Step 3 of [_grow_trees]: the list [new_trees]. *)
Definition new_trees_step (g : HexGrid) (player_id : Z)
    (original_palms original_pines : gset Pos)
    (new_trees : list (Pos * UnitType)) (h : Pos) : list (Pos * UnitType) :=
  if negb (bool_decide (owner (hx g h) = player_id)) then new_trees
  else if negb (bool_decide (unit (hx g h) = NONE)) || has_capital (hx g h)
          || has_castle (hx g h) || grave (hx g h) then new_trees
  else
    let neighbors := get_neighbors g h in
    if is_coastal g h then
      let has_original_palm := bool_decide (Exists (λ n, n ∈ original_palms) neighbors) in
      if has_original_palm then new_trees ++ [(h, TREE_PALM)] else new_trees
    else
      let original_pine_count :=
        Z.of_nat (length (filter (λ n, n ∈ original_pines) neighbors)) in
      if original_pine_count >=? 2 then new_trees ++ [(h, TREE_PINE)] else new_trees.

Definition _grow_trees (g : HexGrid) (player_id : Z) : HexGrid :=
  let original_palms : gset Pos :=
    list_to_set (filter (λ h, unit (hx g h) = TREE_PALM) (all_land g)) in
  let original_pines : gset Pos :=
    list_to_set (filter (λ h, unit (hx g h) = TREE_PINE) (all_land g)) in
  let g := foldl (grow_graves_step player_id) g (all_land g) in
  let new_trees :=
    foldl (new_trees_step g player_id original_palms original_pines) [] (all_land g) in
  foldl (λ g (ht : Pos * UnitType), upd (set_unit ht.2) ht.1 g) g new_trees.

Definition _check_victory (gs : GameState) : GameState :=
  let alive_players := filter (λ p, alive p = true) (players gs) in
  if Z.of_nat (length alive_players) <=? 1
  then mkGameState (grid gs) (players gs) (territories gs) (current_player_idx gs)
         (turn_number gs) true (p_id <$> head alive_players)
  else gs.

(** *** Actions *)

(** A [Territory] argument is one of the objects of [self.territories],
    given by its index; [None] if there is no such object. *)
Definition buy_peasant (gs : GameState) (ti : nat) (target_hex : Pos)
  : option (bool * GameState) :=
  territory ← territories gs !! ti;
  cp ← current_player gs;
  let g := grid gs in
  let done (g : HexGrid) :=
    let g := upd (set_can_move true) target_hex g in
    let territory := set_t_gold (t_gold territory - PEASANT_COST) territory in
    Some (true, set_territories (<[ti := territory]> (territories gs)) (set_grid g gs)) in
  if negb (bool_decide (t_owner territory = p_id cp)) then Some (false, gs)
  else if t_gold territory <? PEASANT_COST then Some (false, gs)
  else if negb (contains territory target_hex) then Some (false, gs)
  else if has_combat_unit (hx g target_hex) then
    match combine_units (unit (hx g target_hex)) PEASANT with
    | None => Some (false, gs)
    | Some combined => done (upd (set_unit combined) target_hex g)
    end
  else if is_empty_land (hx g target_hex) || has_tree (hx g target_hex)
          || grave (hx g target_hex) then
    done (upd (set_grave false) target_hex (upd (set_unit PEASANT) target_hex g))
  else Some (false, gs).

Definition buy_castle (gs : GameState) (ti : nat) (target_hex : Pos)
  : option (bool * GameState) :=
  territory ← territories gs !! ti;
  cp ← current_player gs;
  let g := grid gs in
  if negb (bool_decide (t_owner territory = p_id cp)) then Some (false, gs)
  else if t_gold territory <? CASTLE_COST then Some (false, gs)
  else if negb (contains territory target_hex) then Some (false, gs)
  else if has_castle (hx g target_hex) || has_capital (hx g target_hex) then Some (false, gs)
  else if has_combat_unit (hx g target_hex) then Some (false, gs)
  else if negb (is_land (hx g target_hex)) then Some (false, gs)
  else
    let g := upd (set_has_castle true) target_hex g in
    let g := upd (set_grave false) target_hex g in
    let g := upd (set_unit NONE) target_hex g in
    let territory := set_t_gold (t_gold territory - CASTLE_COST) territory in
    Some (true, set_territories (<[ti := territory]> (territories gs)) (set_grid g gs)).

(** The part of [move_unit] for a target in the unit's own territory: the
    grid after the writes to [to_hex], [None] for [return False]. *)
Definition move_within (g : HexGrid) (unit_type : UnitType) (to_hex : Pos)
  : option HexGrid :=
  if has_combat_unit (hx g to_hex) then
    match combine_units (unit (hx g to_hex)) unit_type with
    | None => None
    | Some combined =>
        Some (upd (set_can_move true) to_hex (upd (set_unit combined) to_hex g))
    end
  else if has_tree (hx g to_hex) then
    Some (upd (set_can_move false) to_hex (upd (set_unit unit_type) to_hex g))
  else if grave (hx g to_hex) then
    Some (upd (set_grave false) to_hex
            (upd (set_can_move false) to_hex (upd (set_unit unit_type) to_hex g)))
  else if is_empty_land (hx g to_hex) then
    Some (upd (set_can_move true) to_hex (upd (set_unit unit_type) to_hex g))
  else None.

(** [t.gold = 0] for the first territory of [old_owner] that contains
    [to_hex]. *)
Fixpoint zero_gold_of_first (old_owner : Z) (to_hex : Pos) (ts : list Territory)
  : list Territory :=
  match ts with
  | [] => []
  | t :: ts =>
      if bool_decide (t_owner t = old_owner) && contains t to_hex
      then set_t_gold 0 t :: ts
      else t :: zero_gold_of_first old_owner to_hex ts
  end.

(** The writes of a capture to [to_hex] and [from_hex]. *)
Definition capture_cells (g : HexGrid) (player_id : Z) (unit_type : UnitType)
    (from_hex to_hex : Pos) : HexGrid :=
  let g := upd (set_owner player_id) to_hex g in
  let g := upd (set_unit unit_type) to_hex g in
  let g := upd (set_has_capital false) to_hex g in
  let g := upd (set_has_castle false) to_hex g in
  let g := upd (set_grave false) to_hex g in
  let g := upd (set_can_move false) to_hex g in
  upd clear_unit from_hex g.

Definition move_unit (gs : GameState) (from_hex to_hex : Pos)
  : option (bool * GameState) :=
  cp ← current_player gs;
  let player_id := p_id cp in
  let g := grid gs in
  if negb (bool_decide (owner (hx g from_hex) = player_id)) then Some (false, gs)
  else if negb (has_combat_unit (hx g from_hex)) then Some (false, gs)
  else if negb (can_move (hx g from_hex)) then Some (false, gs)
  else if negb (is_land (hx g to_hex)) then Some (false, gs)
  else
    let unit_type := unit (hx g from_hex) in
    let power := unit_power unit_type in
    match head (filter (λ t, t_owner t = player_id ∧ from_hex ∈ t_hexes t)
                       (territories gs)) with
    | None => Some (false, gs)
    | Some source_territory =>
      let is_adjacent :=
        bool_decide (Exists (λ h, to_hex ∈ get_neighbors g h) (t_hexes source_territory))
        || bool_decide (to_hex ∈ t_hexes source_territory) in
      if negb is_adjacent && negb (bool_decide (to_hex ∈ t_hexes source_territory))
      then Some (false, gs)
      else if bool_decide (owner (hx g to_hex) = player_id)
              && contains source_territory to_hex then
        match move_within g unit_type to_hex with
        | None => Some (false, gs)
        | Some g => Some (true, set_grid (upd clear_unit from_hex g) gs)
        end
      else if negb (bool_decide (owner (hx g to_hex) = player_id)) then
        let neighbor_of_territory :=
          bool_decide (Exists (λ h, to_hex ∈ get_neighbors g h)
                              (t_hexes source_territory)) in
        if negb neighbor_of_territory then Some (false, gs)
        else
          let defense := get_relative_power g to_hex in
          if power <=? defense then Some (false, gs)
          else
            let old_owner := owner (hx g to_hex) in
            let captured_capital := has_capital (hx g to_hex) in
            let ts := if captured_capital
                      then zero_gold_of_first old_owner to_hex (territories gs)
                      else territories gs in
            let g := capture_cells g player_id unit_type from_hex to_hex in
            let capital_avoid : option (gmap Z (gset Pos)) :=
              if captured_capital
              then Some {[ old_owner := {[to_hex]} ∪ list_to_set (get_neighbors g to_hex) ]}
              else None in
            gs' ← refresh_territories (set_territories ts (set_grid g gs))
                                      capital_avoid (Some from_hex);
            Some (true, gs')
      else Some (false, gs)
    end.

(* ===================================================================== *)
(** ** engine/actions.py *)
(* ===================================================================== *)

Inductive ActionType : Type := BUY_PEASANT | BUY_CASTLE | MOVE_UNIT | END_TURN.

#[global] Instance ActionType_eq_dec : EqDecision ActionType.
Proof. solve_decision. Defined.

(** An [Action] object; an absent argument of the constructor is [None]. *)
Record Action : Type := mkAction {
  type : ActionType;
  from_pos : option Pos;
  to_pos : option Pos;
  territory_idx : option nat
}.

#[global] Instance Action_eq_dec : EqDecision Action.
Proof. solve_decision. Defined.

(** The three parts of the loop body of [get_legal_actions] for the
    territory [territory] with index [t_idx]. *)
Definition buy_peasant_actions (g : HexGrid) (t_idx : nat) (territory : Territory)
  : list Action :=
  if t_gold territory >=? PEASANT_COST then
    h ← t_hexes territory;
    if is_empty_land (hx g h) || grave (hx g h) || has_tree (hx g h)
    then [mkAction BUY_PEASANT None (Some h) (Some t_idx)]
    else if has_combat_unit (hx g h) then
      match combine_units (unit (hx g h)) PEASANT with
      | Some _ => [mkAction BUY_PEASANT None (Some h) (Some t_idx)]
      | None => []
      end
    else []
  else [].

Definition buy_castle_actions (g : HexGrid) (t_idx : nat) (territory : Territory)
  : list Action :=
  if t_gold territory >=? CASTLE_COST then
    h ← t_hexes territory;
    if (is_empty_land (hx g h) || grave (hx g h))
       && negb (has_castle (hx g h)) && negb (has_capital (hx g h))
    then [mkAction BUY_CASTLE None (Some h) (Some t_idx)]
    else []
  else [].

Definition move_unit_actions (g : HexGrid) (player_id : Z) (territory : Territory)
  : list Action :=
  h ← movable_units g territory;
  let power := unit_power (unit (hx g h)) in
  (target ← t_hexes territory;
   if bool_decide (target = h) then []
   else if is_empty_land (hx g target) || grave (hx g target)
   then [mkAction MOVE_UNIT (Some h) (Some target) None]
   else if has_tree (hx g target)
   then [mkAction MOVE_UNIT (Some h) (Some target) None]
   else if has_combat_unit (hx g target) then
     match combine_units (unit (hx g target)) (unit (hx g h)) with
     | Some _ => [mkAction MOVE_UNIT (Some h) (Some target) None]
     | None => []
     end
   else [])
  ++ (target ← neighboring_hexes g territory;
      if bool_decide (owner (hx g target) = player_id) then []
      else if power >? get_relative_power g target
      then [mkAction MOVE_UNIT (Some h) (Some target) None]
      else []).

Definition get_legal_actions (gs : GameState) : option (list Action) :=
  cp ← current_player gs;
  let player_id := p_id cp in
  let player_territories := get_player_territories gs player_id in
  Some (mjoin (imap (λ t_idx territory,
                       buy_peasant_actions (grid gs) t_idx territory
                       ++ buy_castle_actions (grid gs) t_idx territory
                       ++ move_unit_actions (grid gs) player_id territory)
                    player_territories)
        ++ [mkAction END_TURN None None None]).

(* ===================================================================== *)
(** ** ai/alphabeta_ai.py: the reduced action model *)
(* ===================================================================== *)

Definition INF : Z := 100000.

(** The action tuples [(ACT_CAPTURE, fpos, tpos)], [(ACT_MOVE, fpos, tpos)]
    and [(ACT_END_TURN, None, None)]. *)
Inductive SearchAction : Type :=
  | ACT_CAPTURE (fpos tpos : Pos)
  | ACT_MOVE (fpos tpos : Pos)
  | ACT_END_TURN.

#[global] Instance SearchAction_eq_dec : EqDecision SearchAction.
Proof. solve_decision. Defined.

(** The undo tuples of [fast_apply]; [saved] is a dictionary filled in
    iteration order, kept as the list of its items. *)
Inductive Undo : Type :=
  | UNDO_CAPTURE (fpos tpos : Pos) (fu : UnitType) (fcm : bool)
      (tow : Z) (tu : UnitType) (tcap tcas tgr tcm : bool)
  | UNDO_MOVE (fpos tpos : Pos) (fu : UnitType) (fcm : bool)
      (tu : UnitType) (tcm : bool)
  | UNDO_END_TURN (saved : list (Pos * bool)).

(** The inner loop of [get_search_actions] over the neighbours of [fpos]:
    what it appends to [captures] and to [moves]. *)
Definition search_actions_from (g : HexGrid) (player_id : Z) (fpos : Pos)
  : list SearchAction * list SearchAction :=
  let power := unit_power (unit (hx g fpos)) in
  foldl (λ '(captures, moves) n,
           if negb (is_land (hx g n)) then (captures, moves)
           else if negb (bool_decide (owner (hx g n) = player_id)) then
             if power >? get_relative_power g n
             then (captures ++ [ACT_CAPTURE fpos n], moves)
             else (captures, moves)
           else
             if bool_decide (unit (hx g n) = NONE) && negb (has_capital (hx g n))
                && negb (has_castle (hx g n)) && negb (grave (hx g n))
             then (captures, moves ++ [ACT_MOVE fpos n])
             else (captures, moves))
        ([], []) (get_neighbors g fpos).

Definition get_search_actions (g : HexGrid) (player_id : Z) : list SearchAction :=
  let '(captures, moves) :=
    foldl (λ '(captures, moves) (ph : Pos * Hex),
             let h := ph.2 in
             if negb (is_land h) || negb (bool_decide (owner h = player_id))
             then (captures, moves)
             else if negb (has_combat_unit h) || negb (can_move h)
             then (captures, moves)
             else
               let '(cs, ms) := search_actions_from g player_id ph.1 in
               (captures ++ cs, moves ++ ms))
          ([], []) (hex_items g) in
  captures ++ moves ++ [ACT_END_TURN].

(** [grid.hexes[pos]]: a missing key raises. *)
Definition hexes_at (g : HexGrid) (p : Pos) : option Hex := hexes g !! p.

(** The END_TURN loop of [fast_apply]: the cells of [npid] holding a combat
    unit are recorded in [saved] and made movable.  [reset_step] is the
    loop body. *)
Definition reset_step (npid : Z) (acc : list (Pos * bool) * HexGrid) (pos : Pos)
  : list (Pos * bool) * HexGrid :=
  let '(saved, g) := acc in
  let h := hx g pos in
  if bool_decide (owner h = npid) && has_combat_unit h
  then (saved ++ [(pos, can_move h)], upd (set_can_move true) pos g)
  else (saved, g).

Definition reset_can_move (g : HexGrid) (npid : Z) : list (Pos * bool) * HexGrid :=
  foldl (reset_step npid) ([], g) (hex_items g).*1.

Definition fast_apply (g : HexGrid) (player_idx num_players : Z) (action : SearchAction)
  : option (Z * Undo * HexGrid) :=
  match action with
  | ACT_CAPTURE fpos tpos =>
      fh ← hexes_at g fpos;
      th ← hexes_at g tpos;
      let undo := UNDO_CAPTURE fpos tpos (unit fh) (can_move fh)
                    (owner th) (unit th) (has_capital th)
                    (has_castle th) (grave th) (can_move th) in
      let g := upd (set_owner (owner (hx g fpos))) tpos g in
      let g := upd (set_unit (unit (hx g fpos))) tpos g in
      let g := upd (set_has_capital false) tpos g in
      let g := upd (set_has_castle false) tpos g in
      let g := upd (set_grave false) tpos g in
      let g := upd (set_can_move false) tpos g in
      let g := upd (set_unit NONE) fpos g in
      let g := upd (set_can_move false) fpos g in
      Some (player_idx, undo, g)
  | ACT_MOVE fpos tpos =>
      fh ← hexes_at g fpos;
      th ← hexes_at g tpos;
      let undo := UNDO_MOVE fpos tpos (unit fh) (can_move fh) (unit th) (can_move th) in
      let g := upd (set_unit (unit (hx g fpos))) tpos g in
      let g := upd (set_can_move true) tpos g in
      let g := upd (set_unit NONE) fpos g in
      let g := upd (set_can_move false) fpos g in
      Some (player_idx, undo, g)
  | ACT_END_TURN =>
      if num_players =? 0 then None
      else
        let nidx := (player_idx + 1) `mod` num_players in
        let npid := nidx in
        let '(saved, g) := reset_can_move g npid in
        Some (nidx, UNDO_END_TURN saved, g)
  end.

Definition fast_undo (g : HexGrid) (undo : Undo) : option HexGrid :=
  match undo with
  | UNDO_CAPTURE fpos tpos fu fcm tow tu tcap tcas tgr tcm =>
      _ ← hexes_at g fpos;
      _ ← hexes_at g tpos;
      let g := upd (set_unit fu) fpos g in
      let g := upd (set_can_move fcm) fpos g in
      let g := upd (set_owner tow) tpos g in
      let g := upd (set_unit tu) tpos g in
      let g := upd (set_has_capital tcap) tpos g in
      let g := upd (set_has_castle tcas) tpos g in
      let g := upd (set_grave tgr) tpos g in
      let g := upd (set_can_move tcm) tpos g in
      Some g
  | UNDO_MOVE fpos tpos fu fcm tu tcm =>
      _ ← hexes_at g fpos;
      _ ← hexes_at g tpos;
      let g := upd (set_unit fu) fpos g in
      let g := upd (set_can_move fcm) fpos g in
      let g := upd (set_unit tu) tpos g in
      let g := upd (set_can_move tcm) tpos g in
      Some g
  | UNDO_END_TURN saved =>
      foldl (λ (og : option HexGrid) '(pos, cm),
               g ← og;
               _ ← hexes_at g pos;
               Some (upd (set_can_move cm) pos g))
            (Some g) saved
  end.

Definition eval_hex_count (g : HexGrid) (player_id : Z) : Z :=
  let '(my, opp) :=
    foldl (λ '(my, opp) (ph : Pos * Hex),
             let h := ph.2 in
             if negb (is_land h) then (my, opp)
             else if bool_decide (owner h = player_id) then (my + 1, opp)
             else if owner h >=? 0 then (my, opp + 1)
             else (my, opp))
          (0, 0) (hex_items g) in
  my - opp.

(* ===================================================================== *)
(** ** Auxiliary notions used by the statements and proofs *)
(* ===================================================================== *)

(** What a generated action refers to: both cells of a capture or of a
    reposition are keys of the dictionary. *)
Definition action_in_grid (g : HexGrid) (a : SearchAction) : Prop :=
  match a with
  | ACT_CAPTURE fpos tpos | ACT_MOVE fpos tpos =>
      is_Some (hexes g !! fpos) ∧ is_Some (hexes g !! tpos)
  | ACT_END_TURN => True
  end.

(** The END_TURN record replayed cell by cell, without the key checks. *)
Definition restore_saved (g : HexGrid) (saved : list (Pos * bool)) : HexGrid :=
  foldl (λ g '(pos, cm), upd (set_can_move cm) pos g) g saved.


(** One step of the flood fill for owner [o]: [y] is a neighbour of [x]
    and a land cell of [o]. *)
Definition adj (g : HexGrid) (o : Z) (x y : Pos) : Prop :=
  y ∈ get_neighbors g x ∧ is_land (hx g y) = true ∧ owner (hx g y) = o.

(** [y] can be reached from [x] through land cells of [o]. *)
Definition connected (g : HexGrid) (o : Z) : Pos → Pos → Prop := rtc (adj g o).

(** [g'] has the shape of [g], the same keys, and on every cell the same
    [is_land] and [owner]. *)
Definition same_land (g g' : HexGrid) : Prop :=
  width g' = width g ∧ height g' = height g
  ∧ ∀ p, (λ h, (is_land h, owner h)) <$> hexes g' !! p
         = (λ h, (is_land h, owner h)) <$> hexes g !! p.

(** The capital invariant for one territory on grid [g]. *)
Definition capital_ok (g : HexGrid) (t : Territory) : Prop :=
  (2 <= t_size t →
     ∃ p, filter (λ q, has_capital (hx g q) = true) (t_hexes t) = [p])
  ∧ (t_size t <= 1 →
     filter (λ q, has_capital (hx g q) = true) (t_hexes t) = []).

(** A territory as the flood-fill loop of [refresh_territories] builds it on
    grid [g]: no cached capital, cells of the grid that are land of its
    owner, at least one of them, and every neighbour of a member that is
    land of the owner is a member. *)
Definition region_ok (g : HexGrid) (t : Territory) : Prop :=
  t_capital_cache t = None
  ∧ (∀ x, x ∈ t_hexes t →
       is_Some (hexes g !! x) ∧ is_land (hx g x) = true ∧ owner (hx g x) = t_owner t)
  ∧ t_hexes t ≠ []
  ∧ (∀ x n, x ∈ t_hexes t → adj g (t_owner t) x n → n ∈ t_hexes t).

(** The state of the flood-fill loop: the visited cells are the cells of
    the territories found so far, and no cell occurs twice in them. *)
Definition regions_inv (g : HexGrid) (visited : gset Pos) (ts : list Territory) : Prop :=
  (∀ x, x ∈ visited ↔ x ∈ ts ≫= t_hexes)
  ∧ NoDup (ts ≫= t_hexes)
  ∧ Forall (region_ok g) ts.

(** The defense power in the words of the rules: the power of the unit,
    raised to at least 1 on a capital and to at least 2 under a castle. *)
Definition spec_defense_power (h : Hex) : Z :=
  Z.max (unit_power (unit h))
        (Z.max (if has_capital h then 1 else 0) (if has_castle h then 2 else 0)).

(** The relative power in the words of the rules: the maximum of the
    defense power of the cell and of its neighbours with the same owner. *)
Definition spec_relative_power (g : HexGrid) (p : Pos) : Z :=
  foldr Z.max (spec_defense_power (hx g p))
        ((λ n, spec_defense_power (hx g n))
           <$> filter (λ n, owner (hx g n) = owner (hx g p)) (get_neighbors g p)).

(* ===================================================================== *)
(** ** Small concrete boards *)
(* ===================================================================== *)

(** A grid of the given shape holding the listed cells. *)
Definition grid_of_list (w h : Z) (l : list (Pos * Hex)) : HexGrid :=
  mkGrid w h (list_to_map l).

(** Three land cells in a row: a spearman of player 0 that may still move,
    then a capital and a peasant of player 1. *)
Definition line3 : HexGrid :=
  grid_of_list 3 1
    [((0, 0), mkHex true 0 SPEARMAN false false false true);
     ((1, 0), mkHex true 1 NONE true false false false);
     ((2, 0), mkHex true 1 PEASANT false false false false)].

(** A game on [line3] with two players, player 0 to move, before the first
    territory pass. *)
Definition line3_game : GameState :=
  mkGameState line3 [new_Player 0; new_Player 1] [] 0 0 false None.

(** The territories of [line3]: the single cell of player 0, and the two
    cells of player 1 with 3 gold and the capital at [(1, 0)]. *)
Definition line3_t0 : Territory := mkTerritory [(0, 0)] 0 0 None.
Definition line3_t1 : Territory := mkTerritory [(1, 0); (2, 0)] 1 3 (Some (1, 0)).

Definition line3_state : GameState :=
  mkGameState line3 [new_Player 0; new_Player 1] [line3_t0; line3_t1] 0 1 false None.

(** A territory that cannot pay its peasant. *)
Definition poor_territory : Territory := mkTerritory [(2, 0)] 1 0 None.

(** Two cells of player 0: a peasant that may move next to a spearman on
    the capital cell; 20 gold. *)
Definition pair_grid : HexGrid :=
  grid_of_list 2 1
    [((0, 0), mkHex true 0 PEASANT false false false true);
     ((1, 0), mkHex true 0 SPEARMAN true false false false)].

Definition pair_state : GameState :=
  mkGameState pair_grid [new_Player 0; new_Player 1]
    [mkTerritory [(0, 0); (1, 0)] 0 20 (Some (1, 0))] 0 1 false None.

(** Two cells of player 0 with 15 gold: the capital and a pine. *)
Definition pine_grid : HexGrid :=
  grid_of_list 2 1
    [((0, 0), mkHex true 0 NONE true false false false);
     ((1, 0), mkHex true 0 TREE_PINE false false false false)].

Definition pine_territory : Territory :=
  mkTerritory [(0, 0); (1, 0)] 0 15 (Some (0, 0)).

Definition pine_state : GameState :=
  mkGameState pine_grid [new_Player 0; new_Player 1] [pine_territory] 0 1 false None.

(* ===================================================================== *)
(** * Properties *)
(* ===================================================================== *)

(** ** Cells and the cell store *)

Lemma with_hexes_id (g : HexGrid) (m : gmap Pos Hex) :
  m = hexes g → with_hexes g m = g.
Proof. intros ->. by destruct g. Qed.

Lemma hexes_upd f p g : hexes (upd f p g) = alter f p (hexes g).
Proof. done. Qed.

Lemma width_upd f p g : width (upd f p g) = width g.
Proof. done. Qed.

Lemma height_upd f p g : height (upd f p g) = height g.
Proof. done. Qed.

Lemma hx_upd_ne f p g q : p ≠ q → hx (upd f p g) q = hx g q.
Proof. intros. unfold hx. rewrite hexes_upd. by apply lookup_total_alter_ne. Qed.

Lemma hx_upd_eq f p g h : hexes g !! p = Some h → hx (upd f p g) p = f h.
Proof.
  intros H. unfold hx. rewrite hexes_upd, lookup_total_alter_eq. by rewrite H.
Qed.

Lemma hx_lookup g p h : hexes g !! p = Some h → hx g p = h.
Proof. intros H. unfold hx. by apply lookup_total_correct. Qed.

Lemma lookup_upd f p g q :
  hexes (upd f p g) !! q = if decide (p = q) then f <$> hexes g !! q else hexes g !! q.
Proof. rewrite hexes_upd, lookup_alter. by case_decide; subst. Qed.

Lemma lookup_upd_is_Some f p g q :
  is_Some (hexes (upd f p g) !! q) ↔ is_Some (hexes g !! q).
Proof. rewrite lookup_upd. case_decide; [by rewrite fmap_is_Some|done]. Qed.

Lemma upd_comm f1 f2 p q g :
  p ≠ q → upd f1 p (upd f2 q g) = upd f2 q (upd f1 p g).
Proof.
  intros Hpq. unfold upd, with_hexes; simpl. f_equal.
  apply map_eq; intros i. rewrite !lookup_alter.
  repeat case_decide; simplify_eq; done.
Qed.

(** Two grids of one shape with the same cells are equal. *)
Lemma grid_eq (g1 g2 : HexGrid) :
  width g1 = width g2 → height g1 = height g2 →
  (∀ p, hexes g1 !! p = hexes g2 !! p) → g1 = g2.
Proof.
  destruct g1, g2; simpl; intros -> -> H. f_equal. by apply map_eq.
Qed.

Lemma set_can_move_same h : set_can_move (can_move h) h = h.
Proof. by destruct h. Qed.

(** Invariants of a left fold are proved element by element. *)
Lemma foldl_invariant {A B} (P : A → Prop) (f : A → B → A) (l : list B) (a : A) :
  P a → (∀ acc x, x ∈ l → P acc → P (f acc x)) → P (foldl f a l).
Proof.
  revert a. induction l as [|x l IH]; intros a Ha Hstep; simpl; [done|].
  apply IH.
  - apply Hstep; [left|done].
  - intros acc y Hy. apply Hstep. by right.
Qed.

(** ** The dictionary order *)

Lemma NoDup_grid_positions w h : NoDup (grid_positions w h).
Proof.
  unfold grid_positions. apply NoDup_bind.
  - intros c1 c2 p _ _ H1 H2.
    apply list_elem_of_bind in H1 as (r1 & H1 & _).
    apply list_elem_of_bind in H2 as (r2 & H2 & _).
    apply list_elem_of_singleton in H1, H2. congruence.
  - intros c _. apply NoDup_bind.
    + intros r1 r2 p _ _ H1 H2.
      apply list_elem_of_singleton in H1, H2. congruence.
    + intros. apply NoDup_singleton.
    + apply NoDup_seqZ.
  - apply NoDup_seqZ.
Qed.

Lemma hex_items_fst g :
  (hex_items g).*1
  = filter (λ p, is_Some (hexes g !! p)) (grid_positions (width g) (height g)).
Proof.
  unfold hex_items. induction (grid_positions _ _) as [|p l IH]; [done|].
  simpl. rewrite filter_cons. destruct (hexes g !! p) as [h|] eqn:E; simpl.
  - f_equal. exact IH.
  - exact IH.
Qed.

Lemma NoDup_hex_items_fst g : NoDup (hex_items g).*1.
Proof. rewrite hex_items_fst. apply list.NoDup_filter, NoDup_grid_positions. Qed.

Lemma elem_of_hex_items g p h :
  (p, h) ∈ hex_items g ↔
  hexes g !! p = Some h ∧ p ∈ grid_positions (width g) (height g).
Proof.
  unfold hex_items. rewrite list_elem_of_omap. split.
  - intros (q & Hq & Hf). destruct (hexes g !! q) eqn:E; simplify_eq/=. done.
  - intros [Hl Hp]. exists p. split; [done|]. by rewrite Hl.
Qed.

Lemma elem_of_hex_items_fst g p :
  p ∈ (hex_items g).*1 ↔
  is_Some (hexes g !! p) ∧ p ∈ grid_positions (width g) (height g).
Proof.
  rewrite hex_items_fst, list_elem_of_filter. done.
Qed.

Lemma hex_items_upd f p g : (hex_items (upd f p g)).*1 = (hex_items g).*1.
Proof.
  rewrite !hex_items_fst. simpl. apply list_filter_iff. intros q.
  apply lookup_upd_is_Some.
Qed.

Lemma elem_of_get_neighbors g p q :
  q ∈ get_neighbors g p → is_Some (hexes g !! q).
Proof.
  unfold get_neighbors. rewrite list_elem_of_omap. intros (d & _ & Hd).
  destruct (hexes g !! _) eqn:E; simplify_eq/=. eauto.
Qed.

(** ** [fast_apply] followed by [fast_undo] *)

Lemma search_actions_from_in_grid g pid fpos :
  is_Some (hexes g !! fpos) →
  Forall (action_in_grid g) (search_actions_from g pid fpos).1 ∧
  Forall (action_in_grid g) (search_actions_from g pid fpos).2.
Proof.
  intros Hf. unfold search_actions_from.
  apply (foldl_invariant
           (λ acc, Forall (action_in_grid g) acc.1 ∧ Forall (action_in_grid g) acc.2)).
  - split; constructor.
  - intros [cs ms] n Hn [Hc Hm]. apply elem_of_get_neighbors in Hn.
    repeat case_match; simpl in *; try done.
    + split; [|done]. apply Forall_app; split; [done|]. by repeat constructor.
    + split; [done|]. apply Forall_app; split; [done|]. by repeat constructor.
Qed.

Lemma get_search_actions_in_grid g pid :
  Forall (action_in_grid g) (get_search_actions g pid).
Proof.
  unfold get_search_actions.
  match goal with |- context [foldl ?f ?a ?l] =>
    assert (Forall (action_in_grid g) (foldl f a l).1 ∧
            Forall (action_in_grid g) (foldl f a l).2) as H
  end.
  { apply (foldl_invariant
             (λ acc, Forall (action_in_grid g) acc.1 ∧ Forall (action_in_grid g) acc.2)).
    - split; constructor.
    - intros [cs ms] [p h] Hx [Hc Hm]. apply elem_of_hex_items in Hx as [Hl _].
      destruct (search_actions_from_in_grid g pid p) as [Hc' Hm']; [by eauto|].
      simpl. repeat case_match; simpl in *; simplify_eq; try done.
      split; apply Forall_app; by split. }
  destruct (foldl _ _ _) as [cs ms]. destruct H as [Hc Hm].
  rewrite !Forall_app. split_and!; try done. by repeat constructor.
Qed.

(** The last action is always END_TURN: the list is never empty. *)
Lemma get_search_actions_end_turn g pid : ACT_END_TURN ∈ get_search_actions g pid.
Proof.
  unfold get_search_actions. destruct (foldl _ _ _) as [cs ms].
  rewrite !elem_of_app. right; right. by left.
Qed.

(** Writing back what was read leaves a cell as it was. *)
Lemma restore_capture_cell (fh th : Hex) :
  set_can_move (can_move th) (set_grave (grave th) (set_has_castle (has_castle th)
    (set_has_capital (has_capital th) (set_unit (unit th) (set_owner (owner th)
      (set_can_move false (set_grave false (set_has_castle false
        (set_has_capital false (set_unit (unit fh) (set_owner (owner fh) th)))))))))))
  = th.
Proof. by destruct th. Qed.

Lemma fast_apply_undo_capture g pidx n fpos tpos :
  is_Some (hexes g !! fpos) → is_Some (hexes g !! tpos) →
  ∃ u g', fast_apply g pidx n (ACT_CAPTURE fpos tpos) = Some (pidx, u, g')
          ∧ fast_undo g' u = Some g.
Proof.
  intros [fh Hf] [th Ht]. unfold fast_apply, hexes_at. rewrite Hf, Ht. simpl.
  eexists _, _. split; [done|].
  unfold fast_undo, hexes_at.
  rewrite !hexes_upd.
  assert (∀ f k (m : gmap Pos Hex) q,
            is_Some (m !! q) → is_Some (alter f k m !! q)) as Hal.
  { intros f k m q. rewrite lookup_alter. case_decide; subst; [|done].
    by rewrite fmap_is_Some. }
  destruct (alter _ fpos _ !! fpos) eqn:E1; simpl.
  2:{ exfalso. eapply is_Some_None. rewrite <- E1.
      repeat apply Hal. eauto. }
  destruct (alter _ fpos _ !! tpos) eqn:E2; simpl.
  2:{ exfalso. eapply is_Some_None. rewrite <- E2.
      repeat apply Hal. eauto. }
  clear E1 E2 Hal. f_equal. apply grid_eq; [done..|]. intros i.
  rewrite !lookup_upd.
  destruct (decide (fpos = tpos)) as [->|Hne].
  - rewrite (hx_lookup g tpos th Ht).
    erewrite hx_upd_eq by eassumption.
    assert (fh = th) by congruence. subst fh.
    case_decide; [subst i|done].
    rewrite Ht. simpl. f_equal. by destruct th.
  - rewrite (hx_lookup g fpos fh Hf).
    rewrite hx_upd_ne by done. rewrite (hx_lookup g fpos fh Hf).
    repeat case_decide; simplify_eq; try done.
    + rewrite Ht. simpl. f_equal. by destruct th.
    + rewrite Hf. simpl. f_equal. by destruct fh.
Qed.

Lemma fast_apply_undo_move g pidx n fpos tpos :
  is_Some (hexes g !! fpos) → is_Some (hexes g !! tpos) →
  ∃ u g', fast_apply g pidx n (ACT_MOVE fpos tpos) = Some (pidx, u, g')
          ∧ fast_undo g' u = Some g.
Proof.
  intros [fh Hf] [th Ht]. unfold fast_apply, hexes_at. rewrite Hf, Ht. simpl.
  eexists _, _. split; [done|].
  unfold fast_undo, hexes_at.
  rewrite !hexes_upd.
  assert (∀ f k (m : gmap Pos Hex) q,
            is_Some (m !! q) → is_Some (alter f k m !! q)) as Hal.
  { intros f k m q. rewrite lookup_alter. case_decide; subst; [|done].
    by rewrite fmap_is_Some. }
  destruct (alter _ fpos _ !! fpos) eqn:E1; simpl.
  2:{ exfalso. eapply is_Some_None. rewrite <- E1.
      repeat apply Hal. eauto. }
  destruct (alter _ fpos _ !! tpos) eqn:E2; simpl.
  2:{ exfalso. eapply is_Some_None. rewrite <- E2.
      repeat apply Hal. eauto. }
  clear E1 E2 Hal. f_equal. apply grid_eq; [done..|]. intros i.
  rewrite !lookup_upd.
  destruct (decide (fpos = tpos)) as [->|Hne].
  - rewrite (hx_lookup g tpos th Ht).
    assert (fh = th) by congruence. subst fh.
    case_decide; [subst i|done].
    rewrite Ht. simpl. f_equal. by destruct th.
  - rewrite (hx_lookup g fpos fh Hf).
    repeat case_decide; simplify_eq; try done.
    + rewrite Ht. simpl. f_equal. by destruct th.
    + rewrite Hf. simpl. f_equal. by destruct fh.
Qed.

Lemma fast_undo_end_turn g saved :
  Forall (λ pc, is_Some (hexes g !! pc.1)) saved →
  fast_undo g (UNDO_END_TURN saved) = Some (restore_saved g saved).
Proof.
  simpl. unfold restore_saved. revert g.
  induction saved as [|[p cm] saved IH]; intros g Hs; [done|].
  inversion Hs as [|? ? [h Hp] Hs']; subst. simpl in *.
  unfold hexes_at at 2. rewrite Hp. simpl. apply IH.
  eapply List.Forall_impl; [|exact Hs']. intros [q c]; simpl.
  intros Hq. by apply lookup_upd_is_Some.
Qed.

Lemma restore_saved_upd f k g saved :
  k ∉ saved.*1 →
  restore_saved (upd f k g) saved = upd f k (restore_saved g saved).
Proof.
  unfold restore_saved. revert g.
  induction saved as [|[p cm] saved IH]; intros g Hk; [done|].
  simpl in *. apply not_elem_of_cons in Hk as [Hkp Hk].
  rewrite <- IH by done. f_equal. by apply upd_comm.
Qed.

Lemma upd_can_move_back g k :
  upd (set_can_move (can_move (hx g k))) k (upd (set_can_move true) k g) = g.
Proof.
  apply grid_eq; [done..|]. intros i. rewrite !lookup_upd.
  case_decide; [subst i|done].
  destruct (hexes g !! k) as [h|] eqn:E; [|done].
  rewrite (hx_lookup _ _ _ E). simpl. f_equal. by destruct h.
Qed.

(** The loop of END_TURN over any duplicate-free list of keys: the record
    it builds undoes the loop. *)
Lemma reset_loop_undone (npid : Z) (ks : list Pos) :
  NoDup ks →
  ∀ (g : HexGrid) (acc : list (Pos * bool)),
    (∀ k, k ∈ ks → is_Some (hexes g !! k)) →
    ∃ sv, (foldl (reset_step npid) (acc, g) ks).1 = acc ++ sv
          ∧ (∀ k, k ∈ sv.*1 → k ∈ ks)
          ∧ Forall (λ pc, is_Some (hexes (foldl (reset_step npid) (acc, g) ks).2 !! pc.1)) sv
          ∧ restore_saved (foldl (reset_step npid) (acc, g) ks).2 sv = g.
Proof.
  induction 1 as [|k ks Hk Hnd IH]; intros g acc Hkeys.
  - exists []. simpl. rewrite app_nil_r. split_and!; try done; set_solver.
  - cbn [foldl]. unfold reset_step at 2 4 6.
    destruct (bool_decide (owner (hx g k) = npid) && has_combat_unit (hx g k)) eqn:E.
    + destruct (IH (upd (set_can_move true) k g) (acc ++ [(k, can_move (hx g k))]))
        as (sv & Hsv & Hin & Hsome & Hres).
      { intros q Hq. rewrite lookup_upd_is_Some. apply Hkeys. by right. }
      exists ((k, can_move (hx g k)) :: sv).
      rewrite Hsv, <- app_assoc. split_and!; try done.
      * intros q. simpl. rewrite !elem_of_cons. naive_solver.
      * constructor; [|done]. cbn [fst].
        apply (foldl_invariant (λ r, is_Some (hexes r.2 !! k))).
        -- cbn [snd]. apply lookup_upd_is_Some, Hkeys. by left.
        -- intros [s g'] x _ Hx. unfold reset_step. cbn [snd] in Hx.
           destruct (bool_decide (owner (hx g' x) = npid) && has_combat_unit (hx g' x));
             cbn [snd]; [apply lookup_upd_is_Some|]; exact Hx.
      * unfold restore_saved. cbn [foldl].
        change (foldl _ ?g0 sv) with (restore_saved g0 sv).
        rewrite restore_saved_upd by (intros Hc; apply Hk, Hin, Hc).
        rewrite Hres. apply upd_can_move_back.
    + destruct (IH g acc) as (sv & Hsv & Hin & Hsome & Hres).
      { intros q Hq. apply Hkeys. by right. }
      exists sv. split_and!; try done.
      intros q Hq. right. by apply Hin.
Qed.

Lemma fast_apply_undo_end_turn g pidx n :
  n ≠ 0 →
  ∃ u g', fast_apply g pidx n ACT_END_TURN = Some ((pidx + 1) `mod` n, u, g')
          ∧ fast_undo g' u = Some g.
Proof.
  intros Hn. unfold fast_apply.
  destruct (n =? 0) eqn:E; [lia|].
  unfold reset_can_move.
  destruct (reset_loop_undone ((pidx + 1) `mod` n) (hex_items g).*1
              (NoDup_hex_items_fst g) g []) as (sv & Hsv & _ & Hsome & Hres).
  { intros k Hk. by apply elem_of_hex_items_fst in Hk as [? _]. }
  destruct (foldl _ _ _) as [saved g'] eqn:Ef. simpl in *. subst saved.
  eexists _, _. split; [done|].
  rewrite fast_undo_end_turn by done. by rewrite Hres.
Qed.

(** C1. Every action generated by [get_search_actions] can be applied by
    [fast_apply], and [fast_undo] on the returned record gives back the
    grid as it was before the apply: the same shape and, on every cell,
    the same owner, unit, has_capital, has_castle, grave and can_move. *)
Theorem fast_undo_fast_apply (g : HexGrid) (player_id player_idx num_players : Z)
    (action : SearchAction) :
  num_players ≠ 0 →
  action ∈ get_search_actions g player_id →
  ∃ nidx undo g',
    fast_apply g player_idx num_players action = Some (nidx, undo, g')
    ∧ fast_undo g' undo = Some g.
Proof.
  intros Hn Ha.
  pose proof (get_search_actions_in_grid g player_id) as Hall.
  rewrite list.Forall_forall in Hall. specialize (Hall _ Ha).
  destruct action as [fpos tpos|fpos tpos|]; simpl in Hall.
  - destruct Hall as [Hf Ht].
    destruct (fast_apply_undo_capture g player_idx num_players fpos tpos Hf Ht)
      as (u & g' & ? & ?). eauto.
  - destruct Hall as [Hf Ht].
    destruct (fast_apply_undo_move g player_idx num_players fpos tpos Hf Ht)
      as (u & g' & ? & ?). eauto.
  - destruct (fast_apply_undo_end_turn g player_idx num_players Hn)
      as (u & g' & ? & ?). eauto.
Qed.

Lemma fast_undo_fast_apply_witness :
  ∃ nidx undo g',
    fast_apply line3 0 2 (ACT_CAPTURE (0, 0) (1, 0)) = Some (nidx, undo, g')
    ∧ fast_undo g' undo = Some line3.
Proof.
  apply (fast_undo_fast_apply line3 0 0 2 (ACT_CAPTURE (0, 0) (1, 0))).
  - lia.
  - apply (bool_decide_unpack _). vm_compute. reflexivity.
Defined.

(** ** The flood fill *)

(** What the loop over the neighbours adds to the visited set and to the
    queue. *)
Lemma flood_step_foldl g o ns : ∀ v q,
  ∃ added,
    foldl (flood_step g o) (v, q) ns = (v ∪ list_to_set added, q ++ added)
    ∧ NoDup added
    ∧ ∀ x, x ∈ added ↔
           x ∉ v ∧ x ∈ ns ∧ is_land (hx g x) = true ∧ owner (hx g x) = o.
Proof.
  induction ns as [|n ns IH]; intros v q.
  - exists []. rewrite app_nil_r. simpl. split_and!.
    + f_equal. set_solver.
    + constructor.
    + intros x. set_solver.
  - cbn [foldl]. unfold flood_step at 2.
    destruct (bool_decide (n ∉ v) && is_land (hx g n)
              && bool_decide (owner (hx g n) = o)) eqn:E.
    + apply andb_prop in E as [E E3]. apply andb_prop in E as [E1 E2].
      apply bool_decide_eq_true in E1, E3.
      destruct (IH ({[n]} ∪ v) (q ++ [n])) as (added & -> & Hnd & Hin).
      exists (n :: added). split_and!.
      * f_equal; [set_solver|]. by rewrite <- app_assoc.
      * constructor; [|done]. rewrite Hin. set_solver.
      * intros x. rewrite elem_of_cons, Hin.
        destruct (decide (x = n)) as [->|Hne]; [set_solver|]. set_solver.
    + destruct (IH v q) as (added & -> & Hnd & Hin).
      exists added. split_and!; [done..|].
      intros x. rewrite Hin, elem_of_cons.
      split; [naive_solver|]. intros (Hv & [->|Hx] & Hl & Ho); [|done].
      exfalso. rewrite !andb_false_iff in E.
      destruct E as [[E|E]|E].
      * apply bool_decide_eq_false in E. done.
      * congruence.
      * apply bool_decide_eq_false in E. done.
Qed.

(** The loop stops before its fuel ends: each turn takes a cell from the
    queue, and a cell enters the queue only when it leaves the cells of
    the grid that were not visited yet. *)
Lemma flood_fill_loop_is_Some g o : ∀ fuel v q r,
  (size (dom (hexes g) ∖ v) + length q ≤ fuel)%nat →
  is_Some (flood_fill_loop fuel g o v q r).
Proof.
  induction fuel as [|fuel IH]; intros v q r Hm.
  - destruct q; [by eexists|]. simpl in Hm. lia.
  - destruct q as [|c q]; [by eexists|]. cbn [flood_fill_loop].
    destruct (flood_step_foldl g o (get_neighbors g c) v q)
      as (added & -> & Hnd & Hin).
    apply IH. rewrite length_app. simpl in Hm.
    assert (size (dom (hexes g) ∖ (v ∪ list_to_set added)) + length added
            = size (dom (hexes g) ∖ v))%nat as Hsz; [|lia].
    assert (dom (hexes g) ∖ v
            = (dom (hexes g) ∖ (v ∪ list_to_set added)) ∪ list_to_set added) as ->.
    { apply set_eq. intros x. rewrite !elem_of_union, !elem_of_difference,
        elem_of_union, elem_of_list_to_set, elem_of_dom.
      split.
      - intros [Hk Hv]. destruct (decide (x ∈ added)); [by right|left]. naive_solver.
      - intros [[Hk Hv]|Hx]; [naive_solver|].
        apply Hin in Hx as (Hv & Hn & _). split; [|done].
        by apply elem_of_get_neighbors in Hn. }
    assert ((dom (hexes g) ∖ (v ∪ list_to_set added))
            ## (list_to_set added : gset Pos)) as Hd by set_solver.
    rewrite (size_union _ _ Hd).
    by rewrite (size_list_to_set (C:=gset Pos) added Hnd).
Qed.

Lemma flood_fill_is_Some g start o : is_Some (flood_fill g start o).
Proof.
  unfold flood_fill. case_match; [by eexists|].
  apply flood_fill_loop_is_Some. simpl.
  pose proof (subseteq_size (dom (hexes g) ∖ {[start]}) (dom (hexes g))) as Hs.
  rewrite size_dom in Hs. specialize (Hs ltac:(set_solver)). lia.
Qed.

(** The invariant of the loop: the visited cells are those of the result
    and of the queue, none twice; all of them are connected to [start]; and
    the neighbours of a cell of the result that qualify are visited. *)
Lemma flood_fill_loop_spec g o start : ∀ fuel v q r l,
  (∀ x, x ∈ v ↔ x ∈ r ++ q) →
  NoDup (r ++ q) →
  (∀ x, x ∈ v → connected g o start x) →
  (∀ x n, x ∈ r → adj g o x n → n ∈ v) →
  flood_fill_loop fuel g o v q r = Some l →
  NoDup l
  ∧ (∀ x, x ∈ r ++ q → x ∈ l)
  ∧ (∀ x, x ∈ l → connected g o start x)
  ∧ (∀ x n, x ∈ l → adj g o x n → n ∈ l).
Proof.
  induction fuel as [|fuel IH]; intros v q r l Hv Hnd Hc Hcl Hl.
  - destruct q; [|done]. simpl in Hl. simplify_eq.
    rewrite app_nil_r in *. split_and!; [done|done| |].
    + intros x Hx. apply Hc, Hv, Hx.
    + intros x n Hx Ha. eapply Hv, Hcl; done.
  - destruct q as [|c q].
    { simpl in Hl. simplify_eq. rewrite app_nil_r in *. split_and!; [done|done| |].
      + intros x Hx. apply Hc, Hv, Hx.
      + intros x n Hx Ha. eapply Hv, Hcl; done. }
    cbn [flood_fill_loop] in Hl.
    destruct (flood_step_foldl g o (get_neighbors g c) v q)
      as (added & Hf & Hnda & Hin).
    rewrite Hf in Hl.
    apply IH in Hl.
    + destruct Hl as (H1 & H2 & H3 & H4). split_and!; [done| |done|done].
      intros x Hx. apply H2. rewrite !elem_of_app in *. set_solver.
    + intros x. rewrite elem_of_union, elem_of_list_to_set, Hv, !elem_of_app.
      set_solver.
    + rewrite <- app_assoc. simpl. rewrite app_comm_cons, app_assoc.
      apply list.NoDup_app. split_and!; [done| |done].
      intros x Hx Hx'. apply Hin in Hx' as [Hx' _]. apply Hx', Hv, Hx.
    + intros x. rewrite elem_of_union, elem_of_list_to_set.
      intros [Hx|Hx]; [by apply Hc|].
      apply Hin in Hx as (_ & Hn & Hla & Ho).
      apply (rtc_r _ c); [apply Hc, Hv; set_solver|]. done.
    + intros x n. rewrite elem_of_app, elem_of_union, elem_of_list_to_set.
      intros [Hx|Hx] Ha; [left; by eapply Hcl|].
      apply list_elem_of_singleton in Hx as ->.
      destruct (decide (n ∈ v)); [by left|right].
      apply Hin. by destruct Ha as (? & ? & ?).
Qed.

(** ** Neighbours *)

Lemma elem_of_get_neighbors_iff g p q :
  q ∈ get_neighbors g p ↔
  is_Some (hexes g !! q)
  ∧ (q.1 - p.1, q.2 - p.2)
      ∈ (if p.1 `mod` 2 =? 1 then NEIGHBOR_DIRS_ODD else NEIGHBOR_DIRS_EVEN).
Proof.
  unfold get_neighbors. rewrite list_elem_of_omap. split.
  - intros (d & Hd & Hq). destruct (hexes g !! _) eqn:E; simplify_eq/=.
    split; [by eauto|]. destruct d as [dc dr]; simpl.
    by replace (p.1 + dc - p.1) with dc by lia; replace (p.2 + dr - p.2) with dr by lia.
  - intros [[h Hh] Hd]. eexists. split; [exact Hd|]. simpl.
    destruct q as [qc qr]; simpl.
    replace (p.1 + (qc - p.1)) with qc by lia.
    replace (p.2 + (qr - p.2)) with qr by lia. by rewrite Hh.
Qed.

(** The two offset tables agree: adjacency is symmetric. *)
Lemma get_neighbors_sym g p q :
  is_Some (hexes g !! p) → q ∈ get_neighbors g p → p ∈ get_neighbors g q.
Proof.
  intros Hp. rewrite !elem_of_get_neighbors_iff. intros [Hq Hd].
  split; [done|]. destruct p as [pc pr], q as [qc qr]; simpl in *.
  unfold NEIGHBOR_DIRS_ODD, NEIGHBOR_DIRS_EVEN in *.
  destruct (pc `mod` 2 =? 1) eqn:Ep; destruct (qc `mod` 2 =? 1) eqn:Eq;
    rewrite ?Z.eqb_eq, ?Z.eqb_neq in Ep, Eq;
    repeat (apply elem_of_cons in Hd as [Hd|Hd]; [injection Hd as Hc Hr|]);
    try (by apply elem_of_nil in Hd);
    try (exfalso; Z.div_mod_to_equations; lia);
    rewrite !elem_of_cons;
    repeat (first [left; f_equal; lia | right]).
Qed.

(** ** Regions *)

Lemma connected_inv g o s x :
  connected g o s x →
  is_Some (hexes g !! s) → is_land (hx g s) = true → owner (hx g s) = o →
  is_Some (hexes g !! x) ∧ is_land (hx g x) = true ∧ owner (hx g x) = o.
Proof.
  induction 1 as [|x y z [Hn [Hl Ho]] _ IH]; [done|]. intros. apply IH; [|done..].
  by apply elem_of_get_neighbors in Hn.
Qed.

(** Between land cells of one owner the steps can be walked back. *)
Lemma connected_sym g o s x :
  connected g o s x →
  is_Some (hexes g !! s) → is_land (hx g s) = true → owner (hx g s) = o →
  connected g o x s.
Proof.
  induction 1 as [|x y z [Hn [Hl Ho]] Hyz IH]; [constructor|]. intros Hk Hls Hos.
  eapply rtc_r; [apply IH; [by apply elem_of_get_neighbors in Hn|done..]|].
  split_and!; [|done..]. by apply get_neighbors_sym.
Qed.

(** [flood_fill] returns, without repetition, exactly the cells connected
    to [start]. *)
Lemma flood_fill_spec g start o :
  is_land (hx g start) = true → owner (hx g start) = o →
  ∃ l, flood_fill g start o = Some l
       ∧ NoDup l ∧ (∀ x, x ∈ l ↔ connected g o start x).
Proof.
  intros Hl Ho. destruct (flood_fill_is_Some g start o) as [l Hf].
  exists l. split; [done|]. unfold flood_fill in Hf.
  rewrite Hl, bool_decide_eq_true_2 in Hf by done. cbn [negb orb] in Hf.
  apply (flood_fill_loop_spec g o start) in Hf
    as (Hnd & Hin & Hc & Hcl).
  - split; [done|]. intros x. split; [apply Hc|].
    revert x. apply rtc_ind_r.
    + apply Hin. set_solver.
    + intros y z _ Hyz Hy. by eapply Hcl.
  - intros x. set_solver.
  - simpl. apply NoDup_singleton.
  - intros x Hx. apply elem_of_singleton in Hx as ->. constructor.
  - intros x n Hx. by apply elem_of_nil in Hx.
Qed.

Lemma flood_fill_not_owner g start o :
  ¬ (is_land (hx g start) = true ∧ owner (hx g start) = o) →
  flood_fill g start o = Some [].
Proof.
  intros H. unfold flood_fill. case_match eqn:E; [done|]. exfalso. apply H.
  apply orb_false_iff in E as [E1 E2].
  apply negb_false_iff in E1, E2. by apply bool_decide_eq_true in E2.
Qed.

(** ** Grids that differ in other fields than [is_land] and [owner] *)

Lemma same_land_refl g : same_land g g.
Proof. done. Qed.

Lemma same_land_trans g1 g2 g3 : same_land g1 g2 → same_land g2 g3 → same_land g1 g3.
Proof.
  intros (? & ? & H12) (? & ? & H23). split_and!; [congruence..|].
  intros p. by rewrite H23, H12.
Qed.

Lemma same_land_upd f p g :
  (∀ h, is_land (f h) = is_land h ∧ owner (f h) = owner h) → same_land g (upd f p g).
Proof.
  intros Hf. split_and!; [done..|]. intros q. rewrite lookup_upd.
  case_decide; [|done]. destruct (hexes g !! q) as [h|]; [|done]. simpl.
  destruct (Hf h) as [-> ->]. done.
Qed.

Lemma same_land_is_Some g g' p :
  same_land g g' → is_Some (hexes g' !! p) ↔ is_Some (hexes g !! p).
Proof.
  intros (_ & _ & H). specialize (H p).
  destruct (hexes g' !! p), (hexes g !! p); simplify_eq/=; split; by eauto.
Qed.

Lemma same_land_hx g g' p :
  same_land g g' →
  is_land (hx g' p) = is_land (hx g p) ∧ owner (hx g' p) = owner (hx g p).
Proof.
  intros (_ & _ & H). specialize (H p). unfold hx. rewrite !lookup_total_alt.
  destruct (hexes g' !! p), (hexes g !! p); simplify_eq/=; done.
Qed.

Lemma same_land_get_neighbors g g' p :
  same_land g g' → get_neighbors g' p = get_neighbors g p.
Proof.
  intros H. unfold get_neighbors.
  generalize (if p.1 `mod` 2 =? 1 then NEIGHBOR_DIRS_ODD else NEIGHBOR_DIRS_EVEN).
  intros l. induction l as [|d l IH]; [done|]. cbn [omap list_omap]. rewrite IH.
  pose proof (same_land_is_Some g g' (p.1 + d.1, p.2 + d.2) H) as Hs.
  destruct (hexes g' !! _), (hexes g !! _); try done.
  - destruct Hs as [Hs _]. by destruct Hs; eauto.
  - destruct Hs as [_ Hs]. by destruct Hs; eauto.
Qed.

Lemma same_land_all_land g g' : same_land g g' → all_land g' = all_land g.
Proof.
  intros H. pose proof H as (Hw & Hh & Hc). unfold all_land, hex_items.
  rewrite Hw, Hh. induction (grid_positions _ _) as [|p l IH]; [done|].
  simpl. specialize (Hc p).
  destruct (hexes g' !! p) as [h'|], (hexes g !! p) as [h|]; simplify_eq/=; [|done].
  rewrite IH. by replace (is_land h') with (is_land h) by congruence.
Qed.

(** ** Writing one field on a list of cells *)

Lemma same_land_foldl_upd f l : ∀ g,
  (∀ h, is_land (f h) = is_land h ∧ owner (f h) = owner h) →
  same_land g (foldl (λ g h, upd f h g) g l).
Proof.
  induction l as [|p l IH]; intros g Hf; [done|]. simpl.
  eapply same_land_trans; [|by apply IH]. by apply same_land_upd.
Qed.

Lemma lookup_foldl_upd f l q : ∀ g,
  (∀ h, f (f h) = f h) →
  hexes (foldl (λ g h, upd f h g) g l) !! q
  = if decide (q ∈ l) then f <$> hexes g !! q else hexes g !! q.
Proof.
  induction l as [|p l IH]; intros g Hf; [done|]. simpl.
  rewrite IH, lookup_upd by done.
  destruct (decide (q ∈ p :: l)) as [Hin|Hin], (decide (q ∈ l)) as [Hl|Hl],
    (decide (p = q)) as [->|Hne]; try done.
  - destruct (hexes g !! q); [|done]. simpl. by rewrite Hf.
  - apply elem_of_cons in Hin as [->|?]; done.
  - exfalso. apply Hin. by right.
  - exfalso. apply Hin. by right.
  - exfalso. apply Hin. by left.
Qed.

Lemma hx_foldl_upd f l q g :
  (∀ h, f (f h) = f h) → f new_Hex = new_Hex →
  hx (foldl (λ g h, upd f h g) g l) q = if decide (q ∈ l) then f (hx g q) else hx g q.
Proof.
  intros Hf Hn. unfold hx. rewrite !lookup_total_alt, lookup_foldl_upd by done.
  case_decide; [|done]. by destruct (hexes g !! q).
Qed.

Lemma elem_of_all_land g p :
  p ∈ all_land g ↔
  p ∈ grid_positions (width g) (height g)
  ∧ ∃ h, hexes g !! p = Some h ∧ is_land h = true.
Proof.
  unfold all_land. rewrite list_elem_of_bind. split.
  - intros ([q h] & Hp & Hq). apply elem_of_hex_items in Hq as [Hq Hpos].
    simpl in Hp. destruct (is_land h) eqn:E; [|by apply elem_of_nil in Hp].
    apply list_elem_of_singleton in Hp as ->. eauto.
  - intros (Hpos & h & Hh & Hl). exists (p, h). simpl. rewrite Hl.
    split; [by left|]. by apply elem_of_hex_items.
Qed.

Lemma same_land_clear_capitals g : same_land g (clear_capitals g).
Proof. by apply same_land_foldl_upd. Qed.

(** After the clearing loop no land cell of the rectangle has a capital. *)
Lemma clear_capitals_cleared g p :
  grid_wf g → is_Some (hexes g !! p) → is_land (hx g p) = true →
  has_capital (hx (clear_capitals g) p) = false.
Proof.
  intros Hwf [h Hh] Hl. unfold clear_capitals.
  rewrite hx_foldl_upd by done. rewrite decide_True; [done|].
  apply elem_of_all_land. split; [by eapply (map_Forall_lookup_1 _ _ _ _ Hwf)|].
  exists h. split; [done|]. by rewrite (hx_lookup _ _ _ Hh) in Hl.
Qed.

(** ** The stable sort *)

Lemma insert_desc_perm {A} (gt : A → A → bool) x l : insert_desc gt x l ≡ₚ x :: l.
Proof.
  induction l as [|y l IH]; [done|]. simpl. case_match; [|done].
  rewrite IH. apply Permutation_swap.
Qed.

Lemma sort_desc_perm {A} (gt : A → A → bool) l : sort_desc gt l ≡ₚ l.
Proof.
  induction l as [|x l IH]; [done|]. simpl.
  by rewrite insert_desc_perm, IH.
Qed.

(** ** [ensure_capital] *)

Lemma upd_upd f1 f2 p g : upd f1 p (upd f2 p g) = upd (f1 ∘ f2) p g.
Proof.
  apply grid_eq; [done..|]. intros q. rewrite !lookup_upd.
  case_decide; [|done]. by destruct (hexes g !! q).
Qed.

Lemma upd_id p g : upd id p g = g.
Proof.
  apply grid_eq; [done..|]. intros q. rewrite lookup_upd.
  case_decide; [|done]. by destruct (hexes g !! q).
Qed.

Lemma capital_hex_none g t :
  t_capital_cache t = None →
  (∀ q, q ∈ t_hexes t → has_capital (hx g q) = false) →
  capital_hex g t = (None, t).
Proof.
  intros Hc Hall. unfold capital_hex. rewrite Hc.
  destruct (filter _ _) as [|h l] eqn:E; [done|].
  assert (h ∈ filter (λ p, has_capital (hx g p) = true) (t_hexes t)) as Hh
    by (rewrite E; left).
  apply list_elem_of_filter in Hh as [Hh Hin]. rewrite Hall in Hh; done.
Qed.

Lemma head_filter_elem_of {A} (P : A → Prop) `{!∀ x, Decision (P x)} l h l' :
  filter P l = h :: l' → h ∈ l ∧ P h.
Proof.
  intros E. assert (h ∈ filter P l) as Hh by (rewrite E; left).
  apply list_elem_of_filter in Hh as [? ?]. done.
Qed.


(** [_place_capital] after an edit of the chosen cell that keeps [is_land] and
    [owner] is an edit of that one cell. *)
Lemma place_capital_shape g t p g0 F :
  p ∈ t_hexes t → g0 = upd F p g →
  (∀ h, is_land (F h) = is_land h ∧ owner (F h) = owner h) →
  ∃ p' G, p' ∈ t_hexes t
    ∧ _place_capital g0 t p = (upd G p' g, set_t_capital_cache (Some p') t)
    ∧ ∀ h, is_land (G h) = is_land h ∧ owner (G h) = owner h
           ∧ has_capital (G h) = true.
Proof.
  intros Hp -> HF. exists p, (set_grave false ∘ set_has_capital true ∘ F).
  split; [done|]. split; [unfold _place_capital; by rewrite !upd_upd|].
  intros h. destruct (HF h) as [? ?]. done.
Qed.

(** A territory of two or more cells without a capital gets one: the call
    rewrites a single member cell, which then carries the capital. *)
Lemma ensure_capital_shape g t av pref :
  t_capital_cache t = None →
  (∀ q, q ∈ t_hexes t → has_capital (hx g q) = false) →
  2 <= t_size t →
  ∃ p G, p ∈ t_hexes t
    ∧ ensure_capital g t av pref = (upd G p g, set_t_capital_cache (Some p) t)
    ∧ ∀ h, is_land (G h) = is_land h ∧ owner (G h) = owner h
           ∧ has_capital (G h) = true.
Proof.
  intros Hc Hall Hsz. unfold ensure_capital.
  destruct (t_size t >=? 2) eqn:E; [|lia]. rewrite capital_hex_none by done.
  destruct (pref ≫= _) as [h|] eqn:Ep.
  { destruct pref as [pp|]; [|done]. simpl in Ep.
    destruct (filter _ _) as [|h' l'] eqn:Ef; [done|]. simpl in Ep. simplify_eq.
    apply head_filter_elem_of in Ef as [Hin _].
    apply (place_capital_shape g t h g id); [done|by rewrite upd_id|done]. }
  destruct (filter (λ h, has_combat_unit (hx g h) = false ∧ has_castle (hx g h) = false
                         ∧ has_tree (hx g h) = false) (t_hexes t)) as [|c cs] eqn:Ecand.
  2:{ assert (∀ x, x ∈ c :: cs → x ∈ t_hexes t) as Hsub.
      { intros x Hx. rewrite <- Ecand in Hx. by apply list_elem_of_filter in Hx as [_ ?]. }
      destruct av as [a|].
      - destruct (bool_decide (a = ∅)).
        + apply (place_capital_shape g t c g id); [apply Hsub; left|by rewrite upd_id|done].
        + destruct (filter (λ h, h ∉ a) (c :: cs)) as [|s ss] eqn:Es.
          * apply (place_capital_shape g t c g id); [apply Hsub; left|by rewrite upd_id|done].
          * apply head_filter_elem_of in Es as [Hin _].
            apply (place_capital_shape g t s g id); [by apply Hsub|by rewrite upd_id|done].
      - apply (place_capital_shape g t c g id); [apply Hsub; left|by rewrite upd_id|done]. }
  destruct (filter (λ h, has_castle (hx g h) = true) (t_hexes t)) as [|c cs] eqn:Ecas.
  2:{ apply head_filter_elem_of in Ecas as [Hin _].
      by apply (place_capital_shape g t c _ (set_has_castle false)). }
  destruct (sort_desc _ _) as [|u us] eqn:Eu.
  2:{ assert (u ∈ t_hexes t) as Hin.
      { assert (u ∈ u :: us) as Hu by left. rewrite <- Eu, sort_desc_perm in Hu.
        by apply list_elem_of_filter in Hu as [_ ?]. }
      apply (place_capital_shape g t u _
               (set_can_move false ∘ set_grave true ∘ set_unit NONE)); [done| |done].
      by rewrite !upd_upd. }
  destruct (t_hexes t) as [|h0 hs] eqn:Eh.
  { unfold t_size in Hsz. rewrite Eh in Hsz. simpl in Hsz. lia. }
  rewrite <- Eh.
  apply (place_capital_shape g t h0 _ (set_unit NONE)); [rewrite Eh; left|done|done].
Qed.

Lemma filter_none {A} (P : A → Prop) `{!∀ x, Decision (P x)} (l : list A) :
  (∀ q, q ∈ l → ¬ P q) → filter P l = [].
Proof.
  induction l as [|x l IH]; intros HP; [done|]. rewrite filter_cons.
  rewrite decide_False by (apply HP; left). apply IH. intros q Hq. apply HP. by right.
Qed.

Lemma filter_unique {A} (P : A → Prop) `{!∀ x, Decision (P x)} (l : list A) p :
  NoDup l → p ∈ l → (∀ q, q ∈ l → P q ↔ q = p) → filter P l = [p].
Proof.
  induction 1 as [|x l Hx Hnd IH]; intros Hp HP; [by apply elem_of_nil in Hp|].
  rewrite filter_cons. apply elem_of_cons in Hp as [->|Hp].
  - rewrite decide_True by (apply HP; [left|done]). f_equal.
    apply filter_none. intros q Hq HPq. apply HP in HPq; [|by right].
    by subst q.
  - rewrite decide_False.
    + apply IH; [done|]. intros q Hq. apply HP. by right.
    + intros HPx. apply Hx. assert (x = p) as -> by (apply HP; [left|done]). done.
Qed.

(** What [ensure_capital] does to a territory that has no capital yet. *)
Lemma ensure_capital_spec g t av pref g' t' :
  t_capital_cache t = None → NoDup (t_hexes t) →
  (∀ q, q ∈ t_hexes t → is_Some (hexes g !! q) ∧ has_capital (hx g q) = false) →
  ensure_capital g t av pref = (g', t') →
  t_hexes t' = t_hexes t ∧ t_owner t' = t_owner t ∧ t_gold t' = t_gold t
  ∧ same_land g g'
  ∧ (∀ q, q ∉ t_hexes t → hexes g' !! q = hexes g !! q)
  ∧ capital_ok g' t'.
Proof.
  intros Hc Hnd Hall He. destruct (decide (2 <= t_size t)) as [Hsz|Hsz].
  - destruct (ensure_capital_shape g t av pref Hc) as (p & G & Hp & Hs & HG);
      [intros q Hq; by apply Hall|done|].
    rewrite Hs in He. simplify_eq. split_and!; try done.
    + apply same_land_upd. intros h. by destruct (HG h) as (? & ? & ?).
    + intros q Hq. rewrite lookup_upd, decide_False; [done|]. by intros ->.
    + split; [|unfold t_size in *; simpl; lia]. intros _. exists p. simpl.
      apply filter_unique; [done..|]. intros q Hq.
      destruct (decide (q = p)) as [->|Hne].
      * destruct (Hall p Hp) as [[h Hh] _]. rewrite (hx_upd_eq _ _ _ _ Hh).
        by destruct (HG h) as (_ & _ & ->).
      * rewrite hx_upd_ne by done. destruct (Hall q Hq) as [_ ->]. done.
  - unfold ensure_capital in He. destruct (t_size t >=? 2) eqn:E; [lia|].
    simplify_eq. split_and!; try done.
    + by apply same_land_foldl_upd.
    + intros q Hq. rewrite lookup_foldl_upd by done. by rewrite decide_False.
    + split; [unfold t_size in *; simpl; lia|]. intros _. simpl.
      apply filter_none. intros q Hq. rewrite hx_foldl_upd by done.
      rewrite decide_True by done. done.
Qed.

(** ** The flood-fill loop of [refresh_territories] *)

Lemma closed_connected g o (S : list Pos) x y :
  (∀ x n, x ∈ S → adj g o x n → n ∈ S) → x ∈ S → connected g o x y → y ∈ S.
Proof. intros Hcl Hx Hxy. induction Hxy as [|x y z Hxy _ IH]; [done|]. eauto. Qed.

Lemma elem_of_foldl_add (l : list Pos) x : ∀ v : gset Pos,
  x ∈ foldl (λ v rh, {[rh]} ∪ v) v l ↔ x ∈ v ∨ x ∈ l.
Proof.
  induction l as [|y l IH]; intros v; simpl; [set_solver|].
  rewrite IH. set_solver.
Qed.

Lemma regions_step_spec g visited ts h :
  regions_inv g visited ts →
  is_Some (hexes g !! h) → is_land (hx g h) = true →
  ∃ visited' ts',
    regions_step g (Some (visited, ts)) h = Some (visited', ts')
    ∧ regions_inv g visited' ts'
    ∧ visited ⊆ visited'
    ∧ (0 <= owner (hx g h) → h ∈ visited').
Proof.
  intros (Hv & Hnd & Hok) Hk Hl. unfold regions_step. cbn [mbind option_bind].
  destruct (bool_decide (h ∈ visited) || (owner (hx g h) <? 0)) eqn:E.
  { exists visited, ts. split_and!; [done|done|done|].
    intros Ho. apply orb_true_iff in E as [E|E]; [by apply bool_decide_eq_true in E|lia]. }
  apply orb_false_iff in E as [E1 E2]. apply bool_decide_eq_false in E1.
  destruct (flood_fill_spec g h (owner (hx g h)) Hl eq_refl) as (l & -> & Hndl & Hin).
  cbn [mbind option_bind].
  assert (h ∈ l) as Hh by (apply Hin; constructor).
  assert (∀ x, x ∈ l → x ∉ ts ≫= t_hexes) as Hdisj.
  { intros x Hx Hx'. apply Hin in Hx.
    destruct (connected_inv _ _ _ _ Hx Hk Hl eq_refl) as (_ & _ & Hox).
    apply list_elem_of_bind in Hx' as (t0 & Hx' & Ht0).
    rewrite list.Forall_forall in Hok. destruct (Hok t0 Ht0) as (_ & Hmem & _ & Hcl).
    destruct (Hmem x Hx') as (_ & _ & Hox').
    apply E1, Hv, list_elem_of_bind. exists t0. split; [|done].
    apply (closed_connected g (t_owner t0) _ x); [done..|].
    rewrite <- Hox', Hox. by apply connected_sym. }
  destruct l as [|x0 l0] eqn:El; [by apply elem_of_nil in Hh|]. rewrite <- El in *.
  eexists _, _. split; [done|]. split_and!.
  - split_and!.
    + intros x. rewrite elem_of_foldl_add, bind_app, elem_of_app, Hv. simpl.
      by rewrite app_nil_r.
    + rewrite bind_app. simpl. rewrite app_nil_r. apply list.NoDup_app.
      split_and!; [done| |done]. intros x Hx Hx'. by apply (Hdisj x).
    + apply Forall_app. split; [done|]. constructor; [|done].
      split_and!; simpl.
      * done.
      * intros x Hx. apply Hin in Hx. by apply (connected_inv _ _ h).
      * by rewrite El.
      * intros x n Hx Ha. apply Hin. apply Hin in Hx. by eapply rtc_r.
  - intros x Hx. apply elem_of_foldl_add. by left.
  - intros _. apply elem_of_foldl_add. by right.
Qed.

Lemma regions_loop_spec g land : ∀ visited ts,
  (∀ h, h ∈ land → is_Some (hexes g !! h) ∧ is_land (hx g h) = true) →
  regions_inv g visited ts →
  ∃ visited' ts',
    foldl (regions_step g) (Some (visited, ts)) land = Some (visited', ts')
    ∧ regions_inv g visited' ts'
    ∧ visited ⊆ visited'
    ∧ (∀ h, h ∈ land → 0 <= owner (hx g h) → h ∈ visited').
Proof.
  induction land as [|h land IH]; intros visited ts Hland Hinv.
  - exists visited, ts. split_and!; [done..|]. intros h Hh. by apply elem_of_nil in Hh.
  - cbn [foldl].
    destruct (regions_step_spec g visited ts h Hinv) as (v1 & ts1 & -> & Hinv1 & Hsub1 & Hh1);
      [apply Hland; left..|].
    destruct (IH v1 ts1) as (v2 & ts2 & -> & Hinv2 & Hsub2 & Hh2);
      [intros; apply Hland; by right|done|].
    exists v2, ts2. split_and!; [done|done|set_solver|].
    intros x Hx Ho. apply elem_of_cons in Hx as [->|Hx]; [|by apply Hh2].
    apply Hsub2, Hh1, Ho.
Qed.

(** ** The capital loop of [refresh_territories] *)

Lemma filter_ext_elem_of {A} (P Q : A → Prop) `{!∀ x, Decision (P x)}
    `{!∀ x, Decision (Q x)} (l : list A) :
  (∀ x, x ∈ l → P x ↔ Q x) → filter P l = filter Q l.
Proof.
  induction l as [|x l IH]; intros Hext; [done|]. rewrite !filter_cons.
  rewrite IH by (intros y Hy; apply Hext; by right).
  destruct (decide (P x)) as [HP|HP], (decide (Q x)) as [HQ|HQ]; try done.
  - exfalso. apply HQ, Hext; [left|done].
  - exfalso. apply HP, Hext; [left|done].
Qed.

Lemma capital_ok_ext g g' t t' :
  t_hexes t' = t_hexes t →
  (∀ x, x ∈ t_hexes t → hexes g' !! x = hexes g !! x) →
  capital_ok g t → capital_ok g' t'.
Proof.
  intros Hh Hx [H2 H1]. unfold capital_ok, t_size in *. rewrite Hh.
  assert (filter (λ q, has_capital (hx g' q) = true) (t_hexes t)
          = filter (λ q, has_capital (hx g q) = true) (t_hexes t)) as ->; [|done].
  apply filter_ext_elem_of. intros x Hin. unfold hx.
  by rewrite !lookup_total_alt, Hx.
Qed.

Lemma restore_loop_spec old_caps prio ca g1 : ∀ todo g done_ts g' ts',
  same_land g1 g →
  NoDup (todo ≫= t_hexes) →
  Forall (region_ok g1) todo →
  (∀ x, x ∈ todo ≫= t_hexes → hexes g !! x = hexes g1 !! x) →
  (∀ x, x ∈ todo ≫= t_hexes → has_capital (hx g1 x) = false) →
  Forall (capital_ok g) done_ts →
  (∀ x, x ∈ done_ts ≫= t_hexes → x ∉ todo ≫= t_hexes) →
  foldl (restore_step old_caps prio ca) (g, done_ts) todo = (g', ts') →
  same_land g1 g'
  ∧ Forall (capital_ok g') ts'
  ∧ ∃ new, ts' = done_ts ++ new
      ∧ Forall2 (λ t' t, t_hexes t' = t_hexes t ∧ t_owner t' = t_owner t
                         ∧ t_gold t' = sumZ (merged_caps_of old_caps t).*1.*2)
                new todo.
Proof.
  induction todo as [|t todo IH];
    intros g done_ts g' ts' Hsl Hnd Hok Hun Hcl Hdone Hdisj Hf.
  - simpl in Hf. simplify_eq. split_and!; [done..|].
    exists []. by rewrite app_nil_r.
  - cbn [foldl] in Hf. unfold restore_step at 2 in Hf.
    change ((t :: todo) ≫= t_hexes) with (t_hexes t ++ todo ≫= t_hexes) in *.
    apply list.NoDup_app in Hnd as (Hndt & Hdt & Hndr).
    apply list.Forall_cons in Hok as [[Hcache (Hmem & Hne & Hclosed)] Hok].
    destruct (ensure_capital g _ _ _) as [g2 t2] eqn:He.
    apply ensure_capital_spec in He as (Hh & Ho & Hg & Hsl2 & Hout & Hcap);
      [|done|done|].
    2:{ simpl. intros q Hq. split.
        - apply (same_land_is_Some g1 g q Hsl). by apply Hmem.
        - unfold hx. rewrite lookup_total_alt, Hun by (apply elem_of_app; by left).
          rewrite <- lookup_total_alt. apply Hcl, elem_of_app. by left. }
    simpl in Hh, Ho, Hg, Hout.
    apply IH in Hf as (Hsl' & Hall & new & -> & Hnew).
    + split_and!; [done..|]. exists (t2 :: new). split; [by rewrite <- app_assoc|].
      constructor; done.
    + by eapply same_land_trans.
    + done.
    + done.
    + intros x Hx. rewrite Hout; [apply Hun, elem_of_app; by right|].
      intros Hx'. by apply (Hdt x).
    + intros x Hx. apply Hcl, elem_of_app. by right.
    + apply Forall_app. split; [|by constructor].
      apply list.Forall_forall. intros t0 Ht0. rewrite list.Forall_forall in Hdone.
      apply (capital_ok_ext g g2 t0 t0); [done| |by apply Hdone].
      intros x Hx. apply Hout. intros Hx'.
      apply (Hdisj x); [apply list_elem_of_bind; eauto|apply elem_of_app; by left].
    + intros x Hx Hx'. rewrite bind_app in Hx. apply elem_of_app in Hx as [Hx|Hx].
      * apply (Hdisj x Hx). apply elem_of_app. by right.
      * simpl in Hx. rewrite app_nil_r, Hh in Hx. by apply (Hdt x).
Qed.

(** ** [refresh_territories] as a whole *)

Lemma refresh_territories_spec gs ca mp :
  grid_wf (grid gs) →
  ∃ g' ts' new_ts,
    refresh_territories gs ca mp = Some (set_territories ts' (set_grid g' gs))
    ∧ same_land (grid gs) g'
    ∧ Forall (capital_ok g') ts'
    ∧ Forall (region_ok (clear_capitals (grid gs))) new_ts
    ∧ NoDup (new_ts ≫= t_hexes)
    ∧ (∀ h, h ∈ all_land (grid gs) → 0 <= owner (hx (grid gs) h) →
            h ∈ new_ts ≫= t_hexes)
    ∧ Forall2 (λ t' t, t_hexes t' = t_hexes t ∧ t_owner t' = t_owner t
                 ∧ t_gold t'
                   = sumZ (merged_caps_of
                             (foldl (old_caps_step (grid gs)) (∅, []) (territories gs)).1
                             t).*1.*2)
              ts' new_ts.
Proof.
  intros Hwf. unfold refresh_territories.
  destruct (foldl (old_caps_step _) _ _) as [old_caps old_ts] eqn:Eold.
  pose proof (same_land_clear_capitals (grid gs)) as Hsl.
  set (g1 := clear_capitals (grid gs)) in *.
  destruct (regions_loop_spec g1 (all_land g1) ∅ [])
    as (v & new_ts & -> & (Hv & Hnd & Hok) & _ & Hcov).
  { intros h Hh. apply elem_of_all_land in Hh as (_ & c & Hc & Hl).
    split; [by eauto|]. by rewrite (hx_lookup _ _ _ Hc). }
  { split_and!; [set_solver|constructor|constructor]. }
  cbn [mbind option_bind].
  destruct (foldl (restore_step _ _ _) _ _) as [g' ts'] eqn:Er.
  apply restore_loop_spec with (g1 := g1) in Er
    as (Hsl' & Hcap & new & -> & Hnew); try done.
  - exists g', new, new_ts. split_and!; try done.
    + by eapply same_land_trans.
    + intros h Hh Ho. apply Hv, Hcov.
      * by rewrite (same_land_all_land _ _ Hsl).
      * by destruct (same_land_hx _ _ h Hsl) as [_ ->].
  - intros x Hx. apply list_elem_of_bind in Hx as (t & Hx & Ht).
    rewrite list.Forall_forall in Hok. destruct (Hok t Ht) as (_ & Hmem & _).
    destruct (Hmem x Hx) as (Hk & Hl & _).
    apply clear_capitals_cleared; [done|by apply (same_land_is_Some _ _ x Hsl)|].
    by destruct (same_land_hx _ _ x Hsl) as [<- _].
  - intros x Hx. by apply elem_of_nil in Hx.
Qed.

(** [refresh_territories] always returns. *)
Lemma refresh_territories_is_Some gs ca mp : is_Some (refresh_territories gs ca mp).
Proof.
  unfold refresh_territories.
  destruct (foldl (old_caps_step _) _ _) as [old_caps old_ts].
  set (g1 := clear_capitals (grid gs)).
  destruct (regions_loop_spec g1 (all_land g1) ∅ []) as (v & new_ts & -> & _).
  { intros h Hh. apply elem_of_all_land in Hh as (_ & c & Hc & Hl).
    split; [by eauto|]. by rewrite (hx_lookup _ _ _ Hc). }
  { split_and!; [set_solver|constructor|constructor]. }
  cbn [mbind option_bind]. destruct (foldl (restore_step _ _ _) _ _). by eexists.
Qed.

(** C2. After [refresh_territories], on a grid whose keys lie in its
    rectangle: every territory of two or more cells has exactly one member
    cell with [has_capital] set, and every territory of at most one cell
    has none. *)
Theorem refresh_territories_capital_invariant (gs : GameState)
    (capital_avoid : option (gmap Z (gset Pos))) (merge_priority_pos : option Pos) :
  grid_wf (grid gs) →
  ∃ gs', refresh_territories gs capital_avoid merge_priority_pos = Some gs'
    ∧ ∀ t, t ∈ territories gs' →
        (2 <= t_size t →
           ∃ p, filter (λ q, has_capital (hx (grid gs') q) = true) (t_hexes t) = [p])
        ∧ (t_size t <= 1 →
           filter (λ q, has_capital (hx (grid gs') q) = true) (t_hexes t) = []).
Proof.
  intros Hwf.
  destruct (refresh_territories_spec gs capital_avoid merge_priority_pos Hwf)
    as (g' & ts' & new_ts & -> & _ & Hcap & _).
  eexists. split; [done|]. simpl. intros t Ht.
  rewrite list.Forall_forall in Hcap. apply (Hcap t Ht).
Qed.

Lemma refresh_territories_capital_invariant_witness :
  ∃ gs', refresh_territories line3_game None None = Some gs'
    ∧ ∀ t, t ∈ territories gs' →
        (2 <= t_size t →
           ∃ p, filter (λ q, has_capital (hx (grid gs') q) = true) (t_hexes t) = [p])
        ∧ (t_size t <= 1 →
           filter (λ q, has_capital (hx (grid gs') q) = true) (t_hexes t) = []).
Proof.
  apply (refresh_territories_capital_invariant line3_game None None).
  apply (bool_decide_unpack _). vm_compute. reflexivity.
Defined.

(** ** Income and bankruptcy *)

Lemma kill_unit_idemp h : kill_unit (kill_unit h) = kill_unit h.
Proof. by destruct h as [? ? []]. Qed.

Lemma hx_go_bankrupt g t p :
  hx (_go_bankrupt g t).1 p
  = if decide (p ∈ t_hexes t) then kill_unit (hx g p) else hx g p.
Proof. unfold _go_bankrupt. simpl. apply hx_foldl_upd; [apply kill_unit_idemp|done]. Qed.

(** C5. [collect_income] returns true exactly when the treasury plus the
    net income is negative.  In that case the treasury ends at 0 and every
    member cell that held a combat unit holds no unit and is a grave;
    otherwise the grid is unchanged and the net income is added. *)
Theorem collect_income_bankruptcy (g : HexGrid) (t : Territory) :
  let '(bankrupt, g', t') := collect_income g t in
  (bankrupt = true ↔ t_gold t + net_income g t < 0)
  ∧ (t_gold t + net_income g t < 0 →
       t_gold t' = 0
       ∧ ∀ p, p ∈ t_hexes t → has_combat_unit (hx g p) = true →
              unit (hx g' p) = NONE ∧ grave (hx g' p) = true)
  ∧ (0 <= t_gold t + net_income g t →
       g' = g ∧ t_gold t' = t_gold t + net_income g t).
Proof.
  unfold collect_income. cbn [t_gold set_t_gold].
  destruct (t_gold t + net_income g t <? 0) eqn:E.
  - apply Z.ltb_lt in E.
    destruct (_go_bankrupt g _) as [g' t'] eqn:Eb.
    split_and!; [done| |lia]. intros _.
    assert (g' = (_go_bankrupt g (set_t_gold (t_gold t + net_income g t) t)).1) as ->
      by by rewrite Eb.
    assert (t' = (_go_bankrupt g (set_t_gold (t_gold t + net_income g t) t)).2) as ->
      by by rewrite Eb.
    split; [done|]. intros p Hp Hc. rewrite hx_go_bankrupt. simpl.
    rewrite decide_True by done. unfold kill_unit. rewrite Hc. done.
  - apply Z.ltb_ge in E. split_and!; [split; [done|lia]|lia|done].
Qed.

Lemma collect_income_bankruptcy_witness :
  let '(bankrupt, g', t') := collect_income line3 poor_territory in
  (bankrupt = true ↔ t_gold poor_territory + net_income line3 poor_territory < 0)
  ∧ (t_gold poor_territory + net_income line3 poor_territory < 0 →
       t_gold t' = 0
       ∧ ∀ p, p ∈ t_hexes poor_territory → has_combat_unit (hx line3 p) = true →
              unit (hx g' p) = NONE ∧ grave (hx g' p) = true)
  ∧ (0 <= t_gold poor_territory + net_income line3 poor_territory →
       g' = line3 ∧ t_gold t' = t_gold poor_territory + net_income line3 poor_territory).
Proof. exact (collect_income_bankruptcy line3 poor_territory). Defined.

(** ** Failed actions *)

Lemma buy_peasant_false gs ti target gs' :
  buy_peasant gs ti target = Some (false, gs') → gs' = gs.
Proof.
  unfold buy_peasant. intros H.
  destruct (territories gs !! ti); [|done]. cbn [mbind option_bind] in H.
  destruct (current_player gs); [|done]. cbn [mbind option_bind] in H.
  repeat case_match; by simplify_eq.
Qed.

Lemma buy_castle_false gs ti target gs' :
  buy_castle gs ti target = Some (false, gs') → gs' = gs.
Proof.
  unfold buy_castle. intros H.
  destruct (territories gs !! ti); [|done]. cbn [mbind option_bind] in H.
  destruct (current_player gs); [|done]. cbn [mbind option_bind] in H.
  repeat case_match; by simplify_eq.
Qed.

Lemma move_unit_false gs from_hex to_hex gs' :
  move_unit gs from_hex to_hex = Some (false, gs') → gs' = gs.
Proof.
  unfold move_unit. intros H.
  destruct (current_player gs); [|done]. cbn [mbind option_bind] in H.
  repeat case_match; try by simplify_eq.
  all: match goal with
       | H : context [refresh_territories ?a ?b ?c] |- _ =>
           destruct (refresh_territories a b c); by simplify_eq
       end.
Qed.

(** C4. When [buy_peasant], [buy_castle] or [move_unit] returns False, the
    state after the call is the state before it: the grid, the territories
    with their treasuries, and every other field. *)
Theorem failed_action_no_mutation (gs gs' : GameState) (ti : nat)
    (target_hex from_hex to_hex : Pos) :
  buy_peasant gs ti target_hex = Some (false, gs')
  ∨ buy_castle gs ti target_hex = Some (false, gs')
  ∨ move_unit gs from_hex to_hex = Some (false, gs') →
  gs' = gs.
Proof.
  intros [H|[H|H]].
  - by eapply buy_peasant_false.
  - by eapply buy_castle_false.
  - by eapply move_unit_false.
Qed.

Lemma failed_action_no_mutation_witness : line3_state = line3_state.
Proof.
  apply (failed_action_no_mutation line3_state line3_state 1 (2, 0) (0, 0) (2, 0)).
  right. right. vm_compute. reflexivity.
Defined.

(** ** Combining units *)

Lemma combine_units_Some a b c :
  combine_units a b = Some c →
  unit_power c = unit_power a + unit_power b
  ∧ 1 <= unit_power a ∧ 1 <= unit_power b ∧ unit_power a + unit_power b <= 4.
Proof. destruct a, b; vm_compute; intros H; simplify_eq; done. Qed.

Lemma combine_units_None a b :
  combine_units a b = None ↔
  unit_power a = 0 ∨ unit_power b = 0 ∨ 4 < unit_power a + unit_power b.
Proof. destruct a, b; vm_compute; split; intros H; try done; naive_solver. Qed.

Lemma has_combat_unit_is_Some g p :
  has_combat_unit (hx g p) = true → is_Some (hexes g !! p).
Proof.
  unfold hx. rewrite lookup_total_alt. by destruct (hexes g !! p); [eauto|].
Qed.

Lemma has_combat_unit_power h : has_combat_unit h = true ↔ 1 <= unit_power (unit h).
Proof. unfold has_combat_unit. destruct (unit h); vm_compute; split; done. Qed.

Lemma hx_upd_same f p g :
  is_Some (hexes g !! p) → hx (upd f p g) p = f (hx g p).
Proof. intros [h Hh]. by rewrite (hx_upd_eq _ _ _ _ Hh), (hx_lookup _ _ _ Hh). Qed.

Lemma move_unit_combine gs cp from_hex to_hex b gs' :
  current_player gs = Some cp →
  owner (hx (grid gs) to_hex) = p_id cp →
  has_combat_unit (hx (grid gs) to_hex) = true →
  move_unit gs from_hex to_hex = Some (b, gs') →
  (4 < unit_power (unit (hx (grid gs) from_hex))
       + unit_power (unit (hx (grid gs) to_hex)) → b = false ∧ gs' = gs)
  ∧ (b = true → from_hex ≠ to_hex →
     unit_power (unit (hx (grid gs') to_hex))
     = unit_power (unit (hx (grid gs) from_hex))
       + unit_power (unit (hx (grid gs) to_hex))
     ∧ unit_power (unit (hx (grid gs') to_hex)) <= 4).
Proof.
  intros Hcp Ho Hc H. unfold move_unit in H. rewrite Hcp in H.
  cbn [mbind option_bind] in H.
  rewrite (bool_decide_eq_true_2 (owner (hx (grid gs) to_hex) = p_id cp)) in H by done.
  cbn [negb andb] in H.
  unfold move_within in H. rewrite Hc in H.
  destruct (has_combat_unit_is_Some _ _ Hc) as [th Hth].
  repeat case_match; simplify_eq; try (split; [done|done]).
  - split.
    + intros Hs. exfalso.
      match goal with H : combine_units _ _ = Some _ |- _ =>
        apply combine_units_Some in H end. lia.
    + intros _ Hne. simpl.
      rewrite hx_upd_ne by done.
      rewrite !hx_upd_same by (rewrite ?lookup_upd_is_Some; eauto). simpl.
      match goal with H : combine_units _ _ = Some _ |- _ =>
        apply combine_units_Some in H end. lia.
Qed.

Lemma buy_peasant_combine gs ti target b gs' :
  has_combat_unit (hx (grid gs) target) = true →
  buy_peasant gs ti target = Some (b, gs') →
  (4 < unit_power (unit (hx (grid gs) target)) + unit_power PEASANT →
     b = false ∧ gs' = gs)
  ∧ (b = true →
     unit_power (unit (hx (grid gs') target))
     = unit_power (unit (hx (grid gs) target)) + unit_power PEASANT
     ∧ unit_power (unit (hx (grid gs') target)) <= 4).
Proof.
  intros Hc H. unfold buy_peasant in H.
  destruct (territories gs !! ti); [|done]. cbn [mbind option_bind] in H.
  destruct (current_player gs); [|done]. cbn [mbind option_bind] in H.
  rewrite Hc in H.
  destruct (has_combat_unit_is_Some _ _ Hc) as [th Hth].
  repeat case_match; simplify_eq; try (split; [done|done]).
  split.
  - intros Hs. exfalso.
    match goal with H : combine_units _ _ = Some _ |- _ =>
      apply combine_units_Some in H end. lia.
  - intros _. simpl.
    rewrite !hx_upd_same by (rewrite ?lookup_upd_is_Some; eauto). simpl.
    match goal with H : combine_units _ _ = Some _ |- _ =>
      apply combine_units_Some in H end.
    change (unit_power PEASANT) with 1 in *. lia.
Qed.

(** C7. Combining two combat units, by [move_unit] onto a cell of the
    current player that holds a unit or by [buy_peasant] onto a cell that
    holds a unit: when the two powers add up to more than 4 the call
    returns False and leaves the state as it was; when the call succeeds
    the target holds a unit whose power is the sum, at most 4. *)
Theorem combine_cap :
  (∀ gs cp from_hex to_hex b gs',
     current_player gs = Some cp →
     owner (hx (grid gs) to_hex) = p_id cp →
     has_combat_unit (hx (grid gs) to_hex) = true →
     move_unit gs from_hex to_hex = Some (b, gs') →
     (4 < unit_power (unit (hx (grid gs) from_hex))
          + unit_power (unit (hx (grid gs) to_hex)) → b = false ∧ gs' = gs)
     ∧ (b = true → from_hex ≠ to_hex →
        unit_power (unit (hx (grid gs') to_hex))
        = unit_power (unit (hx (grid gs) from_hex))
          + unit_power (unit (hx (grid gs) to_hex))
        ∧ unit_power (unit (hx (grid gs') to_hex)) <= 4))
  ∧ (∀ gs ti target b gs',
       has_combat_unit (hx (grid gs) target) = true →
       buy_peasant gs ti target = Some (b, gs') →
       (4 < unit_power (unit (hx (grid gs) target)) + unit_power PEASANT →
          b = false ∧ gs' = gs)
       ∧ (b = true →
          unit_power (unit (hx (grid gs') target))
          = unit_power (unit (hx (grid gs) target)) + unit_power PEASANT
          ∧ unit_power (unit (hx (grid gs') target)) <= 4)).
Proof.
  split.
  - intros. by eapply move_unit_combine.
  - intros. by eapply buy_peasant_combine.
Qed.

Lemma combine_cap_witness :
  ∃ gs', move_unit pair_state (0, 0) (1, 0) = Some (true, gs')
         ∧ unit_power (unit (hx (grid gs') (1, 0))) = 1 + 2.
Proof.
  eexists. split; [vm_compute; reflexivity|].
  eapply (proj1 combine_cap pair_state (new_Player 0) (0, 0) (1, 0) true);
    [reflexivity|reflexivity|reflexivity|vm_compute; reflexivity|reflexivity|done].
Defined.

(** ** Attacks *)

Lemma defense_power_spec h : defense_power h = spec_defense_power h.
Proof.
  unfold defense_power, spec_defense_power, CAPITAL_DEFENSE, CASTLE_DEFENSE.
  destruct (has_capital h), (has_castle h), (unit h); vm_compute; done.
Qed.

Lemma foldr_max_acc (a b : Z) l : foldr Z.max (Z.max a b) l = Z.max b (foldr Z.max a l).
Proof. induction l as [|x l IH]; simpl; [lia|]. rewrite IH. lia. Qed.

(** [get_relative_power] computes the relative power of the rules. *)
Lemma get_relative_power_spec g p : get_relative_power g p = spec_relative_power g p.
Proof.
  unfold get_relative_power, spec_relative_power.
  rewrite defense_power_spec. generalize (spec_defense_power (hx g p)).
  induction (get_neighbors g p) as [|n l IH]; intros a; [done|].
  cbn [foldl]. rewrite filter_cons. rewrite IH.
  destruct (decide (owner (hx g n) = owner (hx g p))) as [Ho|Ho].
  - rewrite bool_decide_eq_true_2 by done. cbn [fmap list_fmap foldr].
    by rewrite foldr_max_acc, defense_power_spec.
  - by rewrite bool_decide_eq_false_2 by done.
Qed.

(** C3. [move_unit] onto a cell that does not belong to the current player,
    the other preconditions being met (the unit is the player's, is a
    combat unit and may move; the target is land and next to the unit's
    territory): the call returns, and it returns True exactly when the power
    of the unit is greater than the relative power of the target, the
    maximum of the defense power of the target and of its neighbours with
    the same owner. *)
Theorem attack_iff_power (gs : GameState) (cp : Player) (from_hex to_hex : Pos)
    (source_territory : Territory) :
  current_player gs = Some cp →
  owner (hx (grid gs) from_hex) = p_id cp →
  has_combat_unit (hx (grid gs) from_hex) = true →
  can_move (hx (grid gs) from_hex) = true →
  is_land (hx (grid gs) to_hex) = true →
  head (filter (λ t, t_owner t = p_id cp ∧ from_hex ∈ t_hexes t) (territories gs))
    = Some source_territory →
  Exists (λ h, to_hex ∈ get_neighbors (grid gs) h) (t_hexes source_territory) →
  owner (hx (grid gs) to_hex) ≠ p_id cp →
  ∃ b gs', move_unit gs from_hex to_hex = Some (b, gs')
    ∧ (b = true ↔
       spec_relative_power (grid gs) to_hex < unit_power (unit (hx (grid gs) from_hex))).
Proof.
  intros Hcp Hfo Hfc Hfm Htl Hst Hadj Hto. unfold move_unit.
  rewrite Hcp. cbn [mbind option_bind].
  rewrite Hfo, Hfc, Hfm, Htl, Hst.
  rewrite (bool_decide_eq_true_2 (p_id cp = p_id cp)) by done.
  rewrite (bool_decide_eq_true_2 (Exists _ _)) by done.
  rewrite (bool_decide_eq_false_2 (owner _ = _)) by done.
  cbn [negb andb orb]. rewrite <- get_relative_power_spec.
  destruct (unit_power _ <=? get_relative_power _ _) eqn:E.
  - apply Z.leb_le in E. eexists _, _. split; [done|]. split; [done|lia].
  - apply Z.leb_gt in E.
    match goal with |- context [refresh_territories ?a ?b ?c] =>
      destruct (refresh_territories_is_Some a b c) as [gs' ->] end.
    eexists _, _. split; [done|]. done.
Qed.

Lemma attack_iff_power_witness :
  ∃ b gs', move_unit line3_state (0, 0) (1, 0) = Some (b, gs')
    ∧ (b = true ↔
       spec_relative_power line3 (1, 0) < unit_power (unit (hx line3 (0, 0)))).
Proof.
  apply (attack_iff_power line3_state (new_Player 0) (0, 0) (1, 0) line3_t0).
  - reflexivity.
  - reflexivity.
  - reflexivity.
  - reflexivity.
  - reflexivity.
  - vm_compute. reflexivity.
  - apply (bool_decide_unpack _). vm_compute. reflexivity.
  - vm_compute. discriminate.
Defined.

(** ** Castles *)

Lemma elem_of_buy_peasant_actions g i t a :
  a ∈ buy_peasant_actions g i t → type a = BUY_PEASANT.
Proof.
  unfold buy_peasant_actions. case_match; [|by intros ?%elem_of_nil].
  intros (h & Ha & _)%list_elem_of_bind.
  repeat case_match; try (by apply elem_of_nil in Ha);
    by apply list_elem_of_singleton in Ha as ->.
Qed.

Lemma elem_of_move_unit_actions g pid t a :
  a ∈ move_unit_actions g pid t → type a = MOVE_UNIT.
Proof.
  unfold move_unit_actions.
  intros (h & Ha & _)%list_elem_of_bind.
  apply elem_of_app in Ha as [Ha|Ha];
    apply list_elem_of_bind in Ha as (x & Ha & _);
    repeat case_match; try (by apply elem_of_nil in Ha);
    by apply list_elem_of_singleton in Ha as ->.
Qed.

(** The enumerator proposes a castle only on a member cell that is empty
    land or a grave, without castle and capital. *)
Lemma elem_of_buy_castle_actions g i t a :
  a ∈ buy_castle_actions g i t →
  ∃ h, a = mkAction BUY_CASTLE None (Some h) (Some i) ∧ h ∈ t_hexes t
       ∧ CASTLE_COST <= t_gold t
       ∧ (is_empty_land (hx g h) || grave (hx g h)) = true
       ∧ has_castle (hx g h) = false ∧ has_capital (hx g h) = false.
Proof.
  unfold buy_castle_actions. case_match eqn:Eg; [|by intros ?%elem_of_nil].
  intros (h & Ha & Hh)%list_elem_of_bind.
  case_match eqn:E; [|by apply elem_of_nil in Ha].
  apply list_elem_of_singleton in Ha as ->. exists h.
  apply andb_prop in E as [E E3]. apply andb_prop in E as [E1 E2].
  apply negb_true_iff in E2, E3. split_and!; try done. lia.
Qed.

Lemma elem_of_get_legal_actions gs acts a :
  get_legal_actions gs = Some acts → a ∈ acts →
  ∃ cp, current_player gs = Some cp
    ∧ (a = mkAction END_TURN None None None
       ∨ ∃ i t, get_player_territories gs (p_id cp) !! i = Some t
           ∧ (a ∈ buy_peasant_actions (grid gs) i t
              ∨ a ∈ buy_castle_actions (grid gs) i t
              ∨ a ∈ move_unit_actions (grid gs) (p_id cp) t)).
Proof.
  unfold get_legal_actions. destruct (current_player gs) as [cp|]; [|done].
  cbn [mbind option_bind]. intros [= <-] Ha. exists cp. split; [done|].
  apply elem_of_app in Ha as [Ha|Ha]; [right|left; by apply list_elem_of_singleton in Ha].
  apply list_elem_of_join in Ha as (l & Ha & Hl).
  apply elem_of_lookup_imap in Hl as (i & t & -> & Ht).
  exists i, t. split; [done|]. rewrite !elem_of_app in Ha. naive_solver.
Qed.

(** C10. [buy_castle] on a member land cell that holds a tree or is a
    grave, with no unit, castle or capital on it, for a territory of the
    current player with at least [CASTLE_COST] gold: the call returns True,
    the cell then holds the castle and neither tree nor grave, and the cost
    is taken from the treasury.  Yet [get_legal_actions] lists no
    BUY_CASTLE for a tree cell (one that is not flagged as a grave as
    well). *)
Theorem buy_castle_on_tree_or_grave (gs : GameState) (cp : Player) (ti : nat)
    (territory : Territory) (target_hex : Pos) :
  territories gs !! ti = Some territory →
  current_player gs = Some cp →
  t_owner territory = p_id cp →
  CASTLE_COST <= t_gold territory →
  target_hex ∈ t_hexes territory →
  is_Some (hexes (grid gs) !! target_hex) →
  is_land (hx (grid gs) target_hex) = true →
  has_tree (hx (grid gs) target_hex) = true ∨ grave (hx (grid gs) target_hex) = true →
  has_combat_unit (hx (grid gs) target_hex) = false →
  has_castle (hx (grid gs) target_hex) = false →
  has_capital (hx (grid gs) target_hex) = false →
  (∃ gs', buy_castle gs ti target_hex = Some (true, gs')
     ∧ has_castle (hx (grid gs') target_hex) = true
     ∧ unit (hx (grid gs') target_hex) = NONE
     ∧ grave (hx (grid gs') target_hex) = false
     ∧ t_gold <$> territories gs' !! ti = Some (t_gold territory - CASTLE_COST))
  ∧ (has_tree (hx (grid gs) target_hex) = true →
     grave (hx (grid gs) target_hex) = false →
     ∀ acts a, get_legal_actions gs = Some acts → a ∈ acts →
               type a = BUY_CASTLE → to_pos a ≠ Some target_hex).
Proof.
  intros Ht Hcp Ho Hg Hin Hk Hl Htg Hcu Hca Hcap. split.
  - unfold buy_castle. rewrite Ht, Hcp. cbn [mbind option_bind].
    rewrite bool_decide_eq_true_2 by done.
    destruct (t_gold territory <? CASTLE_COST) eqn:E; [lia|].
    unfold contains. rewrite bool_decide_eq_true_2 by done.
    rewrite Hca, Hcap, Hcu, Hl. cbn [negb orb].
    eexists. split; [done|]. cbn [grid set_grid set_territories territories].
    rewrite !hx_upd_same by (rewrite ?lookup_upd_is_Some; done).
    split_and!; try done.
    rewrite list_lookup_insert_eq by (by eapply lookup_lt_Some). done.
  - intros Htree Hgr acts a Hacts Ha Hty Hto.
    destruct (elem_of_get_legal_actions _ _ _ Hacts Ha) as (cp' & _ & [->|H]); [done|].
    destruct H as (i & t & _ & [H|[H|H]]).
    + apply elem_of_buy_peasant_actions in H. congruence.
    + apply elem_of_buy_castle_actions in H as (h & -> & _ & _ & He & _).
      simpl in Hto. simplify_eq. rewrite Hgr, orb_false_r in He.
      unfold is_empty_land, has_tree in *.
      destruct (unit (hx (grid gs) target_hex)); try done;
        by rewrite andb_false_r in He.
    + apply elem_of_move_unit_actions in H. congruence.
Qed.

Lemma buy_castle_on_tree_or_grave_witness :
  (∃ gs', buy_castle pine_state 0 (1, 0) = Some (true, gs')
     ∧ has_castle (hx (grid gs') (1, 0)) = true
     ∧ unit (hx (grid gs') (1, 0)) = NONE
     ∧ grave (hx (grid gs') (1, 0)) = false
     ∧ t_gold <$> territories gs' !! 0%nat
       = Some (t_gold pine_territory - CASTLE_COST))
  ∧ (has_tree (hx (grid pine_state) (1, 0)) = true →
     grave (hx (grid pine_state) (1, 0)) = false →
     ∀ acts a, get_legal_actions pine_state = Some acts → a ∈ acts →
               type a = BUY_CASTLE → to_pos a ≠ Some (1, 0)).
Proof.
  apply (buy_castle_on_tree_or_grave pine_state (new_Player 0) 0 pine_territory (1, 0));
    try reflexivity.
  - apply (bool_decide_unpack _). vm_compute. reflexivity.
  - vm_compute. eauto.
  - left. reflexivity.
Defined.
